(** * Operator Lifecycle Manager: CRD storage versions and the gRPC registry reconciler

    A shallow embedding of
      - [pkg/lib/crd/version.go]                      (module [crd]),
      - [pkg/controller/registry/reconciler/grpc.go]  (module [reconciler]),
    and the properties the specification states about them.  The code comes
    first, then the vocabulary of the properties and concrete clusters to
    run the code on, then the properties.

    Conventions.  A Go [error] value is an element of [error]; a function that
    returns [(T, error)] returns a [result T]; a nil pointer is [None]; a Go
    map used as a set is a [gset], a label map is a [gmap string string]; a
    slice is a list (a nil slice and an empty slice are both [[]]: the code
    only takes [len] of them and ranges over them). *)

From stdpp Require Import base option list strings gmap sets pretty.
From Stdlib Require Import ZArith Lia.

Local Open Scope string_scope.

(** ** Go errors and results *)

Inductive error : Type :=
| errorString (msg : string)                 (* fmt.Errorf, errors.New *)
| withMessage (cause : error) (msg : string) (* errors.Wrapf *).

Inductive result (A : Type) : Type :=
| Ok (a : A)
| Err (e : error).
Arguments Ok {A} a.
Arguments Err {A} e.

#[global] Instance error_eq_dec : EqDecision error.
Proof. solve_decision. Defined.

(** [errors.Wrapf(err, msg)] of github.com/pkg/errors: nil stays nil. *)
Definition Wrapf (err : option error) (msg : string) : option error :=
  match err with
  | None => None
  | Some e => Some (withMessage e msg)
  end.

(* ====================================================================== *)
(** ** pkg/lib/crd/version.go *)
(* ====================================================================== *)

Module crd.

(** V1Beta1 refers to the deprecated v1beta1 APIVersion of CRD objects *)
Definition V1Beta1Version : string := "v1beta1".

(** V1 refers to the new v1 APIVersion of CRD objects *)
Definition V1Version : string := "v1".

Definition supportedCRDVersions : gset string :=
  {[ V1Beta1Version; V1Version ]}.

(** [schema.GroupVersionKind] of apimachinery. *)
Record GroupVersionKind : Type := mkGVK {
  gvk_Group : string;
  gvk_Version : string;
  gvk_Kind : string;
}.

Section Version.

(** The YAML-or-JSON decoder and the generic document it fills are
    apimachinery's; [Version] uses them through these two operations. *)
Variable Unstructured : Type.
(** [yaml.NewYAMLOrJSONDecoder(strings.NewReader(m), 10).Decode(unst)] *)
Variable Decode : string -> result Unstructured.
(** [unst.GroupVersionKind()] *)
Variable GetGroupVersionKind : Unstructured -> GroupVersionKind.

(** Version takes a CRD manifest and determines whether it is v1 or v1beta1
    type based on the APIVersion. *)
Definition Version (manifest : option string) : result string :=
  match manifest with
  | None => Err (errorString "empty CRD manifest")
  | Some m =>
      match Decode m with
      | Err err => Err err
      | Ok unst =>
          let v := gvk_Version (GetGroupVersionKind unst) in
          if bool_decide (v ∈ supportedCRDVersions)
          then Ok v
          else Err (errorString
                      ("CRD APIVersion from manifest not supported: " +:+ v))
      end
  end.

End Version.
Arguments Version {Unstructured} Decode GetGroupVersionKind manifest.

(** The two CRD schema variants carry the same fields as far as this package
    reads them. *)
Record CustomResourceDefinitionVersion : Type := mkVersion {
  Name : string;
  Storage : bool;
}.

Record CustomResourceDefinition : Type := mkCRD {
  Spec_Versions : list CustomResourceDefinitionVersion;
  Status_StoredVersions : list string;
}.

(** [runtime.Object], as far as the type switches of this package tell its
    dynamic types apart. *)
Inductive Object : Type :=
| apiextensionsv1 (crd : CustomResourceDefinition)
| apiextensionsv1beta1 (crd : CustomResourceDefinition)
| otherObject.

(** [for _, version := range crd.Status.StoredVersions { m[version] = struct{}{} }] *)
Definition insertStored (versions : list string) : gset string :=
  foldl (fun m version => {[ version ]} ∪ m) ∅ versions.

(** [for _, version := range crd.Spec.Versions { if version.Storage { m[version.Name] = struct{}{} } }] *)
Definition insertStorage (versions : list CustomResourceDefinitionVersion)
  : gset string :=
  foldl (fun m version =>
           if Storage version then {[ Name version ]} ∪ m else m) ∅ versions.

Definition getStoredVersions (oldCRD newCRD : Object)
  : gset string * gset string :=
  let oldStoredVersions :=
    match oldCRD with
    | apiextensionsv1 crd => insertStored (Status_StoredVersions crd)
    | apiextensionsv1beta1 crd => insertStored (Status_StoredVersions crd)
    | otherObject => ∅
    end in
  let newStoredVersions :=
    match newCRD with
    | apiextensionsv1 crd => insertStorage (Spec_Versions crd)
    | apiextensionsv1beta1 crd => insertStorage (Spec_Versions crd)
    | otherObject => ∅
    end in
  (newStoredVersions, oldStoredVersions).

(** The loop of [RunStorageMigration] over the keys of the old map, in the
    order the iteration happens to deliver them. *)
Fixpoint rangeOldStoredVersions (names : list string)
    (newStoredVersions : gset string) : bool :=
  match names with
  | [] => true
  | name :: rest =>
      if bool_decide (name ∈ newStoredVersions)
      then false
      else rangeOldStoredVersions rest newStoredVersions
  end.

(** RunStorageMigration determines whether the new CRD changes the storage
    version of the existing CRD. *)
Definition RunStorageMigration (oldCRD newCRD : Object) : bool :=
  let '(newStoredVersions, oldStoredVersions) :=
    getStoredVersions oldCRD newCRD in
  rangeOldStoredVersions (elements oldStoredVersions) newStoredVersions.

(** The first version flagged as storage version, [""] when there is none. *)
Fixpoint firstStorage (versions : list CustomResourceDefinitionVersion)
  : string :=
  match versions with
  | [] => ""
  | version :: rest =>
      if Storage version then Name version else firstStorage rest
  end.

(** GetNewStorageVersion returns the storage version defined in the CRD. *)
Definition GetNewStorageVersion (crd : Object) : string :=
  match crd with
  | apiextensionsv1 crd => firstStorage (Spec_Versions crd)
  | apiextensionsv1beta1 crd => firstStorage (Spec_Versions crd)
  | otherObject => ""
  end.

(** A CRD descriptor of either schema variant, as a [runtime.Object]. *)
Inductive SchemaVariant : Type := V1 | V1Beta1.

Definition asObject (s : SchemaVariant) (crd : CustomResourceDefinition)
  : Object :=
  match s with
  | V1 => apiextensionsv1 crd
  | V1Beta1 => apiextensionsv1beta1 crd
  end.

End crd.

(* ====================================================================== *)
(** ** pkg/controller/registry/reconciler/grpc.go *)
(* ====================================================================== *)

Module reconciler.

(** *** Kubernetes objects, as far as the reconciler reads and writes them *)

(** A [time.Time] is the number of nanoseconds since Go's zero time
    [time.Time{}]; a [time.Duration] is a number of nanoseconds. *)
Abbreviation Time := Z (only parsing).
Abbreviation Duration := Z (only parsing).

Definition zeroTime : Time := 0%Z.
Definition Second : Duration := 1000000000%Z.

Record OwnerReference : Type := mkOwnerReference {
  owner_Name : string;
  owner_Controller : bool;
  owner_BlockOwnerDeletion : bool;
}.

Record Container : Type := mkContainer {
  container_Name : string;
  container_Image : string;
  container_ReadinessDelay : Z;
  container_LivenessDelay : Z;
}.

Record ContainerStatus : Type := mkContainerStatus {
  ImageID : string;
}.

Record Pod : Type := mkPod {
  pod_Name : string;
  pod_GenerateName : string;
  pod_Namespace : string;
  pod_Labels : gmap string string;
  pod_OwnerReferences : list OwnerReference;
  pod_CreationTimestamp : Time;
  pod_Containers : list Container;              (* Spec.Containers *)
  pod_ContainerStatuses : list ContainerStatus; (* Status.ContainerStatuses *)
}.

Record ServicePort : Type := mkServicePort {
  port_Name : string;
  port_Port : Z;
  port_TargetPort : Z;
}.

Record Service : Type := mkService {
  svc_Name : string;
  svc_Namespace : string;
  svc_Ports : list ServicePort;
  svc_Selector : gmap string string;
  svc_OwnerReferences : list OwnerReference;
}.

Record RegistryServiceStatus : Type := mkRegistryServiceStatus {
  CreatedAt : Time;
  Protocol : string;
  ServiceName : string;
  ServiceNamespace : string;
  Port : string;
}.

Record CatalogSource : Type := mkCatalogSource {
  cs_Name : string;
  cs_Namespace : string;
  cs_CreationTimestamp : Time;
  Spec_Image : string;
  Spec_Poll_Interval : Duration;
  Status_RegistryServiceStatus : option RegistryServiceStatus;
}.

(** [catalogSource.Status.RegistryServiceStatus = &status] *)
Definition setRegistryServiceStatus (cs : CatalogSource)
    (status : RegistryServiceStatus) : CatalogSource :=
  {| cs_Name := cs_Name cs;
     cs_Namespace := cs_Namespace cs;
     cs_CreationTimestamp := cs_CreationTimestamp cs;
     Spec_Image := Spec_Image cs;
     Spec_Poll_Interval := Spec_Poll_Interval cs;
     Status_RegistryServiceStatus := Some status |}.

(** [p.Labels[key] = value] *)
Definition setLabel (p : Pod) (key value : string) : Pod :=
  {| pod_Name := pod_Name p;
     pod_GenerateName := pod_GenerateName p;
     pod_Namespace := pod_Namespace p;
     pod_Labels := <[ key := value ]> (pod_Labels p);
     pod_OwnerReferences := pod_OwnerReferences p;
     pod_CreationTimestamp := pod_CreationTimestamp p;
     pod_Containers := pod_Containers p;
     pod_ContainerStatuses := pod_ContainerStatuses p |}.

(** [labels.Selector] as [labels.SelectorFromValidatedSet] builds it: one
    equality requirement per pair of the set. *)
Abbreviation Selector := (gmap string string) (only parsing).

Definition SelectorFromValidatedSet (ls : gmap string string) : Selector := ls.

(** [selector.Matches(labels.Set(ls))]: every required key is present in
    [ls] with the required value. *)
Definition Matches (selector : Selector) (ls : gmap string string) : bool :=
  bool_decide (map_Forall (fun k v => ls !! k = Some v) selector).

(** *** The collaborators *)

(** What the reconciler does to the outside, in the order it does it. *)
Inductive Event : Type :=
| Pods_Delete (namespace name : string)
| Pods_Create (namespace : string) (pod : Pod)
| DeleteService (namespace name : string)
| CreateService (service : Service)
| Go_getPodDigest (source : CatalogSource).

(** Constants of package [reconciler] that grpc.go uses and other files of
    the package declare. *)
Class Package : Type := {
  CatalogSourceLabelKey : string;
}.

(** The Go runtime over a world [W]: the wall clock, [time.Sleep], and the
    scheduler's choice at a [go] statement that is followed by a
    non-blocking receive: how many steps the new goroutine has taken by the
    time the receive is executed, none if it has not been scheduled yet. *)
Class GoRuntime (W : Type) : Type := {
  time_Now : W -> Time * W;
  time_Sleep : Duration -> W -> W;
  go_steps_first : W -> nat * W;
}.

(** Where the goroutine of [getPodDigest] stands between two steps: before
    the create call; in the polling loop, before one of its attempts;
    before the log line; before the send on the channel; at its end, with
    what it has sent. *)
Inductive Probe : Type :=
| probe_start
| probe_attempt (pod : Pod) (attempts : nat)
| probe_log (pod : Pod) (newCatalogSourceImage : string)
| probe_send (newCatalogSourceImage : string)
| probe_end (sent : option string).

(** What a receive finds on the one-slot channel of the probe. *)
Definition sentOf (p : Probe) : option string :=
  match p with
  | probe_end sent => sent
  | _ => None
  end.

(** [operatorlister.OperatorLister]: the read-through cache. *)
Record OperatorLister (W : Type) : Type := mkLister {
  PodLister_List : W -> string -> Selector -> result (list Pod);
  ServiceLister_Get : W -> string -> string -> result Service;
}.
Arguments mkLister {W}.
Arguments PodLister_List {W}.
Arguments ServiceLister_Get {W}.

(** [operatorclient.ClientInterface]: the mutating calls. *)
Record ClientInterface (W : Type) : Type := mkClient {
  client_Pods_Delete : string -> string -> W -> option error * W;
  client_Pods_Create : string -> Pod -> W -> result Pod * W;
  client_DeleteService : string -> string -> W -> option error * W;
  client_CreateService : Service -> W -> result Service * W;
}.
Arguments mkClient {W}.
Arguments client_Pods_Delete {W}.
Arguments client_Pods_Create {W}.
Arguments client_DeleteService {W}.
Arguments client_CreateService {W}.

Record GrpcRegistryReconciler (W : Type) : Type := mkReconciler {
  now : W -> Time * W;
  Lister : OperatorLister W;
  OpClient : ClientInterface W;
}.
Arguments mkReconciler {W}.
Arguments now {W}.
Arguments Lister {W}.
Arguments OpClient {W}.

(** *** Computations: a world, the trace of events, and run-time panics *)

Record State (W : Type) : Type := mkState {
  world : W;
  trace : list Event;
}.
Arguments mkState {W}.
Arguments world {W}.
Arguments trace {W}.

Inductive Outcome (W A : Type) : Type :=
| Return (a : A) (st : State W)
| Panic (st : State W).
Arguments Return {W A}.
Arguments Panic {W A}.

Definition M (W A : Type) : Type := State W -> Outcome W A.

Definition ret {W A} (a : A) : M W A := fun st => Return a st.

Definition bind {W A B} (m : M W A) (f : A -> M W B) : M W B :=
  fun st =>
    match m st with
    | Return a st' => f a st'
    | Panic st' => Panic st'
    end.

#[global] Instance M_ret {W} : MRet (M W) := fun A => @ret W A.
#[global] Instance M_bind {W} : MBind (M W) := fun A B f m => bind m f.

(** A run-time panic (index out of range). *)
Definition panic {W A} : M W A := fun st => Panic st.

(** A lookup that reads the world. *)
Definition read {W A} (f : W -> A) : M W A :=
  fun st => Return (f (world st)) st.

(** An operation of the runtime that is not an API call. *)
Definition lift {W A} (op : W -> A * W) : M W A :=
  fun st => let '(a, w) := op (world st) in Return a (mkState w (trace st)).

(** An API call: recorded in the trace, then performed on the world. *)
Definition call {W A} (e : Event) (op : W -> A * W) : M W A :=
  fun st =>
    let '(a, w) := op (world st) in Return a (mkState w (trace st ++ [e])).

(** Something that happens without touching the world. *)
Definition emit {W} (e : Event) : M W unit :=
  fun st => Return tt (mkState (world st) (trace st ++ [e])).

(** [l[0]] *)
Definition index0 {W A} (l : list A) : M W A :=
  match l with
  | [] => panic
  | x :: _ => ret x
  end.

Definition outcome_state {W A} (o : Outcome W A) : State W :=
  match o with
  | Return _ st => st
  | Panic st => st
  end.

Definition returns {W A} (o : Outcome W A) : bool :=
  match o with
  | Return _ _ => true
  | Panic _ => false
  end.

Section Reconciler.

Context {W : Type} {runtime : GoRuntime W} {package : Package}.

(** *** Helpers of the repository that grpc.go calls *)

(** Modelled from the spec: [ownerutil.AddOwner(object, owner,
    blockOwnerDeletion, isController)] is not among the sources.  The spec
    (4.3) has it add an owner reference to the CatalogSource that is not
    marked controller and not marked block-owner-deletion. *)
Definition AddOwner (refs : list OwnerReference) (owner : CatalogSource)
    (blockOwnerDeletion isController : bool) : list OwnerReference :=
  refs ++ [ {| owner_Name := cs_Name owner;
               owner_Controller := isController;
               owner_BlockOwnerDeletion := blockOwnerDeletion |} ].

(** Modelled from the spec: the package's [Pod(source, name, image, labels,
    readinessDelay, livenessDelay)] is not among the sources.  The spec (3)
    has it build a workload with one container using the given image, the
    given readiness and liveness delays and the given labels; a pod built
    this way has not run, so its status carries no container statuses.  What
    the spec does not mention keeps Go's zero value. *)
Definition newPod (source : CatalogSource) (name image : string)
    (labels : gmap string string) (readinessDelay livenessDelay : Z) : Pod :=
  {| pod_Name := "";
     pod_GenerateName := "";
     pod_Namespace := cs_Namespace source;
     pod_Labels := labels;
     pod_OwnerReferences := [];
     pod_CreationTimestamp := zeroTime;
     pod_Containers :=
       [ {| container_Name := name;
            container_Image := image;
            container_ReadinessDelay := readinessDelay;
            container_LivenessDelay := livenessDelay |} ];
     pod_ContainerStatuses := [] |}.

(** *** grpcCatalogSourceDecorator

    The decorator embeds the [*CatalogSource] and adds methods: it is the
    CatalogSource itself. *)

Definition decorator_Selector (s : CatalogSource) : Selector :=
  SelectorFromValidatedSet {[ CatalogSourceLabelKey := cs_Name s ]}.

Definition decorator_Labels (s : CatalogSource) : gmap string string :=
  {[ CatalogSourceLabelKey := cs_Name s ]}.

Definition decorator_Service (s : CatalogSource) : Service :=
  {| svc_Name := cs_Name s;
     svc_Namespace := cs_Namespace s;
     svc_Ports := [ {| port_Name := "grpc";
                       port_Port := 50051;
                       port_TargetPort := 50051 |} ];
     svc_Selector := decorator_Labels s;
     svc_OwnerReferences := AddOwner [] s false false |}.

Definition decorator_Pod (s : CatalogSource) : Pod :=
  let pod := newPod s "registry-server" (Spec_Image s) (decorator_Labels s) 5 10 in
  {| pod_Name := pod_Name pod;
     pod_GenerateName := pod_GenerateName pod;
     pod_Namespace := pod_Namespace pod;
     pod_Labels := pod_Labels pod;
     pod_OwnerReferences := AddOwner (pod_OwnerReferences pod) s false false;
     pod_CreationTimestamp := pod_CreationTimestamp pod;
     pod_Containers := pod_Containers pod;
     pod_ContainerStatuses := pod_ContainerStatuses pod |}.

(** *** GrpcRegistryReconciler *)

Variable c : GrpcRegistryReconciler W.

Definition currentService (source : CatalogSource) : M W (option Service) :=
  let serviceName := svc_Name (decorator_Service source) in
  r ← read (fun w =>
              ServiceLister_Get (Lister c) w (cs_Namespace source) serviceName);
  match r with
  | Err _ => mret None
  | Ok service => mret (Some service)
  end.

Definition currentPods (source : CatalogSource) : M W (list Pod) :=
  r ← read (fun w =>
              PodLister_List (Lister c) w (cs_Namespace source)
                (decorator_Selector source));
  match r with
  | Err _ => mret []
  | Ok pods => mret pods
  end.

(** The loop of [currentPodsWithCorrectImage]. *)
Fixpoint rangeCorrectImage (image : string) (pods found : list Pod)
  : M W (list Pod) :=
  match pods with
  | [] => mret found
  | p :: rest =>
      c0 ← index0 (pod_Containers p);
      if bool_decide (container_Image c0 = image)
      then rangeCorrectImage image rest (found ++ [p])
      else rangeCorrectImage image rest found
  end.

Definition currentPodsWithCorrectImage (source : CatalogSource)
  : M W (list Pod) :=
  r ← read (fun w =>
              PodLister_List (Lister c) w (cs_Namespace source)
                (SelectorFromValidatedSet (decorator_Labels source)));
  match r with
  | Err _ => mret []
  | Ok pods => rangeCorrectImage (Spec_Image source) pods []
  end.

(** The deletion loop of [ensurePod]. *)
Fixpoint rangeDeletePods (namespace : string) (pods : list Pod)
  : M W (option error) :=
  match pods with
  | [] => mret None
  | p :: rest =>
      err ← call (Pods_Delete namespace (pod_Name p))
                 (client_Pods_Delete (OpClient c) namespace (pod_Name p));
      match err with
      | Some e =>
          mret (Some (withMessage e ("error deleting old pod: " +:+ pod_Name p)))
      | None => rangeDeletePods namespace rest
      end
  end.

Definition createPod (source : CatalogSource) : M W (option error) :=
  r ← call (Pods_Create (cs_Namespace source) (decorator_Pod source))
           (client_Pods_Create (OpClient c) (cs_Namespace source)
              (decorator_Pod source));
  match r with
  | Ok _ => mret None
  | Err e =>
      mret (Some (withMessage e
                    ("error creating new pod: "
                       +:+ pod_GenerateName (decorator_Pod source))))
  end.

Definition ensurePod (source : CatalogSource) (overwrite : bool)
  : M W (option error) :=
  pods ← currentPods source;
  match pods with
  | [] => createPod source
  | _ :: _ =>
      if negb overwrite then mret None
      else
        err ← rangeDeletePods (cs_Namespace source) pods;
        match err with
        | Some e => mret (Some e)
        | None => createPod source
        end
  end.

Definition createService (service : Service) : M W (option error) :=
  r ← call (CreateService service) (client_CreateService (OpClient c) service);
  match r with
  | Ok _ => mret None
  | Err e => mret (Some e)
  end.

Definition ensureService (source : CatalogSource) (overwrite : bool)
  : M W (option error) :=
  let service := decorator_Service source in
  current ← currentService source;
  match current with
  | None => createService service
  | Some _ =>
      if negb overwrite then mret None
      else
        err ← call (DeleteService (svc_Namespace service) (svc_Name service))
                   (client_DeleteService (OpClient c)
                      (svc_Namespace service) (svc_Name service));
        match err with
        | Some e => mret (Some e)
        | None => createService service
        end
  end.

(** The polling loop of [getPodDigest]: at most [attempts] reads of the
    image ID the created pod reports, ten seconds apart. *)
Fixpoint pollImageID (pod : Pod) (attempts : nat) (newCatalogSourceImage : string)
  : M W string :=
  match attempts with
  | O => mret newCatalogSourceImage
  | S attempts' =>
      status ← index0 (pod_ContainerStatuses pod);
      if bool_decide (ImageID status = "")
      then
        _ ← lift (fun w => (tt, time_Sleep (10 * Second) w));
        pollImageID pod attempts' (ImageID status)
      else mret (ImageID status)
  end.

(** The pod [getPodDigest] asks the cluster to create. *)
Definition probePod (source : CatalogSource) : Pod :=
  setLabel (decorator_Pod source) CatalogSourceLabelKey "".

(** getPodDigest creates a pod using the latest catalog source.  Once the
    pod comes up, it puts the container image digest onto the channel: the
    value returned is what has been sent, if anything. *)
Definition getPodDigest (source : CatalogSource) : M W (option string) :=
  let p := probePod source in
  r ← call (Pods_Create (cs_Namespace source) p)
           (client_Pods_Create (OpClient c) (cs_Namespace source) p);
  match r with
  | Err _ => mret None
  | Ok pod =>
      newCatalogSourceImage ← pollImageID pod 10 "";
      if bool_decide (newCatalogSourceImage = "") then mret None
      else
        (* the log line reads both first elements again *)
        _ ← index0 (pod_Containers pod);
        _ ← index0 (pod_ContainerStatuses pod);
        mret (Some newCatalogSourceImage)
  end.

(** [getPodDigest] step by step, as the scheduler sees it.  A step is the
    create call, one attempt of the polling loop with its sleep, the log
    line, or the send; the goroutine needs thirteen steps at most. *)
Definition stepProbe (source : CatalogSource) (p : Probe) : M W Probe :=
  match p with
  | probe_start =>
      r ← call (Pods_Create (cs_Namespace source) (probePod source))
               (client_Pods_Create (OpClient c) (cs_Namespace source)
                  (probePod source));
      match r with
      | Err _ => mret (probe_end None)
      | Ok pod => mret (probe_attempt pod 10)
      end
  | probe_attempt pod attempts =>
      status ← index0 (pod_ContainerStatuses pod);
      if bool_decide (ImageID status = "")
      then
        _ ← lift (fun w => (tt, time_Sleep (10 * Second) w));
        match attempts with
        | S (S attempts') => mret (probe_attempt pod (S attempts'))
        | _ => mret (probe_end None)
        end
      else mret (probe_log pod (ImageID status))
  | probe_log pod newCatalogSourceImage =>
      _ ← index0 (pod_Containers pod);
      _ ← index0 (pod_ContainerStatuses pod);
      mret (probe_send newCatalogSourceImage)
  | probe_send newCatalogSourceImage =>
      mret (probe_end (Some newCatalogSourceImage))
  | probe_end sent => mret (probe_end sent)
  end.

Fixpoint runProbe (source : CatalogSource) (steps : nat) (p : Probe)
  : M W Probe :=
  match steps with
  | O => mret p
  | S steps' => p' ← stepProbe source p; runProbe source steps' p'
  end.

(** [go c.getPodDigest(source, podDigestChan)] followed by the non-blocking
    receive on the one-slot channel: the goroutine takes the steps the
    scheduler gives it, and the receive finds what it has sent by then.
    The caller does not wait for the steps that are left; a panic of the
    goroutine among the steps taken ends the process. *)
Definition go_getPodDigest (source : CatalogSource) : M W (option string) :=
  _ ← emit (Go_getPodDigest source);
  steps ← lift go_steps_first;
  p ← runProbe source steps probe_start;
  mret (sentOf p).

(** updateRegistryPodByDigest verifies the latest catalog source by
    comparing image digests. *)
Definition updateRegistryPodByDigest (source : CatalogSource) : M W bool :=
  let lastCheckedTimestamp := zeroTime in
  let interval := Spec_Poll_Interval source in
  if bool_decide (interval = 0%Z) then mret false
  else
    t ← lift time_Now;
    gate ← (if bool_decide (lastCheckedTimestamp + interval < t)%Z
            then
              t' ← lift time_Now;
              mret (bool_decide (cs_CreationTimestamp source + interval < t')%Z)
            else mret false);
    podDigestChan ← (if gate : bool
                     then
                       _ ← lift time_Now; (* lastCheckedTimestamp = time.Now() *)
                       go_getPodDigest source
                     else mret None);
    match podDigestChan with
    | Some newCatalogSourceImageDigest =>
        status ← index0 (pod_ContainerStatuses (decorator_Pod source));
        if bool_decide (newCatalogSourceImageDigest = ImageID status)
        then mret false
        else mret true
    | None => mret false
    end.

(** EnsureRegistryServer ensures that all components of registry server are
    up to date.  The descriptor behind the pointer is returned next to the
    error. *)
Definition EnsureRegistryServer (catalogSource : CatalogSource)
  : M W (option error * CatalogSource) :=
  let source := catalogSource in
  let overwrite :=
    match Status_RegistryServiceStatus source with
    | None => true
    | Some _ => false
    end in
  overwritePod ←
    (if overwrite then mret true
     else
       found ← currentPodsWithCorrectImage source;
       if bool_decide (length found = 0%nat) then mret true
       else updateRegistryPodByDigest source);
  err ← ensurePod source overwritePod;
  match Wrapf err ("error ensuring pod: " +:+ pod_Name (decorator_Pod source)) with
  | Some e => mret (Some e, catalogSource)
  | None =>
      err ← ensureService source overwrite;
      match Wrapf err ("error ensuring service: "
                         +:+ svc_Name (decorator_Service source)) with
      | Some e => mret (Some e, catalogSource)
      | None =>
          if overwritePod : bool
          then
            now ← lift (now c);
            port ← index0 (svc_Ports (decorator_Service source));
            mret (None,
                  setRegistryServiceStatus catalogSource
                    {| CreatedAt := now;
                       Protocol := "grpc";
                       ServiceName := svc_Name (decorator_Service source);
                       ServiceNamespace := cs_Namespace source;
                       Port := pretty (port_Port port) |})
          else mret (None, catalogSource)
      end
  end.

(** CheckRegistryServer returns true if the given CatalogSource is
    considered healthy; false otherwise. *)
Definition CheckRegistryServer (catalogSource : CatalogSource)
  : M W (bool * option error) :=
  let source := catalogSource in
  found ← currentPodsWithCorrectImage source;
  if bool_decide (length found < 1)%nat then mret (false, None)
  else
    service ← currentService source;
    match service with
    | None => mret (false, None)
    | Some _ => mret (true, None)
    end.

End Reconciler.

(** *** grpc_address.go

    The reconciler of catalog sources that give the address of a registry:
    it has nothing to converge, and stamps the status record. *)

Record GrpcAddressRegistryReconciler (W : Type) : Type := mkAddressReconciler {
  address_now : W -> Time * W;
}.
Arguments mkAddressReconciler {W}.
Arguments address_now {W}.

(** EnsureRegistryServer ensures a registry server exists for the given
    CatalogSource. *)
Definition GrpcAddress_EnsureRegistryServer {W}
    (g : GrpcAddressRegistryReconciler W) (catalogSource : CatalogSource)
  : M W (option error * CatalogSource) :=
  now ← lift (address_now g);
  mret (None,
        setRegistryServiceStatus catalogSource
          {| CreatedAt := now;
             Protocol := "grpc";
             ServiceName := "";
             ServiceNamespace := "";
             Port := "" |}).

End reconciler.

(* ====================================================================== *)
(** ** The vocabulary of the properties *)
(* ====================================================================== *)

Section crd_vocabulary.

Import crd.

(** A name of the old CRD's stored versions is also the name of a version of
    the new CRD that is flagged as storage version. *)
Definition sharesStorageVersion (old new : CustomResourceDefinition) : Prop :=
  ∃ name, name ∈ Status_StoredVersions old
          ∧ ∃ v, v ∈ Spec_Versions new ∧ Storage v = true ∧ Name v = name.

End crd_vocabulary.

Section reconciler_vocabulary.

Import reconciler.

Context {W : Type} {runtime : GoRuntime W} {package : Package}.

Implicit Types (c : GrpcRegistryReconciler W) (st : State W).
Implicit Types (cs source : CatalogSource) (p : Pod).

(** The pods and the service the cache shows for a catalog source in a
    world: nothing when the lookup fails. *)
Definition cachedPods c cs (w : W) : list Pod :=
  match PodLister_List (Lister c) w (cs_Namespace cs) (decorator_Selector cs) with
  | Ok pods => pods
  | Err _ => []
  end.

Definition cachedService c cs (w : W) : option Service :=
  match ServiceLister_Get (Lister c) w (cs_Namespace cs) (cs_Name cs) with
  | Ok service => Some service
  | Err _ => None
  end.

(** The image of the first container, when there is one. *)
Definition firstImage p : option string :=
  container_Image <$> head (pod_Containers p).

Definition hasContainer p : Prop := pod_Containers p ≠ [].

Definition withLister c (lister : OperatorLister W) : GrpcRegistryReconciler W :=
  mkReconciler (now c) lister (OpClient c).

(** A cache whose every read fails. *)
Definition failingLister (errPods errService : error) : OperatorLister W :=
  mkLister (fun _ _ _ => Err errPods) (fun _ _ _ => Err errService).

(** A cache that holds nothing: no pod is listed, and looking a service up
    by name answers with the not-found error. *)
Definition emptyLister (notFound : string → error) : OperatorLister W :=
  mkLister (fun _ _ _ => Ok []) (fun _ _ name => Err (notFound name)).

Definition deletions (namespace : string) (pods : list Pod) : list Event :=
  map (fun p => Pods_Delete namespace (pod_Name p)) pods.

(** The deletion that precedes the creation of the service. *)
Definition serviceDeletion c cs (w : W) : list Event :=
  match cachedService c cs w with
  | Some _ => [DeleteService (cs_Namespace cs) (cs_Name cs)]
  | None => []
  end.

(** [updateRegistryPodByDigest] in three pieces, for the statements below;
    [updateRegistryPodByDigest_polling] puts them together again.  First the
    rate gate: its two readings of the wall clock. *)
Definition rateGate cs : M W bool :=
  t ← lift time_Now;
  if bool_decide (zeroTime + Spec_Poll_Interval cs < t)%Z
  then
    t' ← lift time_Now;
    mret (bool_decide (cs_CreationTimestamp cs + Spec_Poll_Interval cs < t')%Z)
  else mret false.

(** Then everything up to the select statement: what the non-blocking
    receive finds on the channel. *)
Definition receiveDigest c cs : M W (option string) :=
  gate ← rateGate cs;
  if gate : bool
  then _ ← lift time_Now; go_getPodDigest c cs
  else mret None.

(** Last the branches of the select statement. *)
Definition compareDigest cs (podDigestChan : option string) : M W bool :=
  match podDigestChan with
  | Some newCatalogSourceImageDigest =>
      status ← index0 (pod_ContainerStatuses (decorator_Pod cs));
      if bool_decide (newCatalogSourceImageDigest = ImageID status)
      then mret false
      else mret true
  | None => mret false
  end.

(** The events a probe adds to the trace: the start of the goroutine, and
    its creation call if it has run by the time of the receive. *)
Definition probeEvents cs (l : list Event) : Prop :=
  l = [Go_getPodDigest cs]
  ∨ l = [Go_getPodDigest cs; Pods_Create (cs_Namespace cs) (probePod cs)].

(** The two readings of the wall clock that the rate gate takes. *)
Definition firstReading (w : W) : Time := (time_Now w).1.
Definition secondReading (w : W) : Time := (time_Now (time_Now w).2).1.

(** A call has started a probe when its trace goes on with the start of the
    goroutine. *)
Definition startsProbe cs (before after : list Event) : Prop :=
  ∃ l, after = (before ++ Go_getPodDigest cs :: l)%list.









(** Every event a computation adds to the trace satisfies [P], whether the
    computation returns or panics. *)
Definition appends {A} (P : Event → Prop) (m : M W A) : Prop :=
  ∀ st, ∃ l, trace (outcome_state (m st)) = (trace st ++ l)%list ∧ Forall P l.

(** The calls EnsureRegistryServer can make for a catalog source: the start
    of a probe and the creation of its pod, the deletion of a pod, the
    creation of the desired pod, the creation of the desired service, and,
    when [overwrite] holds, the deletion of the service; all of them in the
    namespace of the catalog source. *)
Definition ensureEvent cs (overwrite : bool) (e : Event) : Prop :=
  match e with
  | Go_getPodDigest source => source = cs
  | Pods_Create namespace pod =>
      namespace = cs_Namespace cs
      ∧ (pod = decorator_Pod cs ∨ pod = probePod cs)
  | Pods_Delete namespace name => namespace = cs_Namespace cs
  | CreateService service => service = decorator_Service cs
  | DeleteService namespace name =>
      overwrite = true ∧ namespace = cs_Namespace cs ∧ name = cs_Name cs
  end.

(** [nil] and an error the client has answered. *)
Definition errorOf {A} (r : result A) : option error :=
  match r with
  | Ok _ => None
  | Err e => Some e
  end.

(** The world the client leaves when it has deleted [pods] one after the
    other, every deletion succeeding. *)
Fixpoint afterDeletions c (namespace : string) (pods : list Pod) (w : W)
  : option W :=
  match pods with
  | [] => Some w
  | p :: rest =>
      match (client_Pods_Delete (OpClient c) namespace (pod_Name p) w).1 with
      | None =>
          afterDeletions c namespace rest
            (client_Pods_Delete (OpClient c) namespace (pod_Name p) w).2
      | Some _ => None
      end
  end.

(** The first statement of EnsureRegistryServer: whether the pod is to be
    replaced. *)
Definition overwritesPod c cs : M W bool :=
  match Status_RegistryServiceStatus cs with
  | None => mret true
  | Some _ =>
      found ← currentPodsWithCorrectImage c cs;
      if bool_decide (length found = 0%nat) then mret true
      else updateRegistryPodByDigest c cs
  end.

End reconciler_vocabulary.

(* ====================================================================== *)
(** ** Concrete collaborators, to run the code on *)
(* ====================================================================== *)

Module scenarios.

Import reconciler.

(** A decoder for documents that consist of their version alone. *)
Definition Decode (m : string) : result string :=
  if bool_decide (m = "") then Err (errorString "EOF") else Ok m.

Definition GetGroupVersionKind (unst : string) : crd.GroupVersionKind :=
  crd.mkGVK "apiextensions.k8s.io" unst "CustomResourceDefinition".

(** A cluster whose cache does not move during a call. *)
Record Cluster : Type := mkCluster {
  clock : Time;
  podCache : result (list Pod);
  serviceCache : result (list Service);
  (* the error of every mutating call, when the API server refuses them *)
  apiError : option error;
  (* the scheduler's choice at a go statement: the goroutine runs to its
     end before the receive, or takes [probeSteps] steps *)
  probeRunsFirst : bool;
  probeSteps : nat;
}.

Definition listPods (w : Cluster) (namespace : string)
    (selector : gmap string string) : result (list Pod) :=
  match podCache w with
  | Err e => Err e
  | Ok pods =>
      Ok (filter (fun p => pod_Namespace p = namespace
                           ∧ Matches selector (pod_Labels p) = true) pods)
  end.

Definition getService (w : Cluster) (namespace name : string)
  : result Service :=
  match serviceCache w with
  | Err e => Err e
  | Ok services =>
      match filter (fun s => svc_Namespace s = namespace ∧ svc_Name s = name)
                   services with
      | s :: _ => Ok s
      | [] => Err (errorString ("service not found: " +:+ name))
      end
  end.

Definition lister : OperatorLister Cluster := mkLister listPods getService.

Definition mutate {A} (a : A) (w : Cluster) : option error * Cluster :=
  (apiError w, w).

Definition create {A} (a : A) (w : Cluster) : result A * Cluster :=
  match apiError w with
  | Some e => (Err e, w)
  | None => (Ok a, w)
  end.

Definition withStatuses (p : Pod) (statuses : list ContainerStatus) : Pod :=
  {| pod_Name := pod_Name p;
     pod_GenerateName := pod_GenerateName p;
     pod_Namespace := pod_Namespace p;
     pod_Labels := pod_Labels p;
     pod_OwnerReferences := pod_OwnerReferences p;
     pod_CreationTimestamp := pod_CreationTimestamp p;
     pod_Containers := pod_Containers p;
     pod_ContainerStatuses := statuses |}.

(** The client; [statuses] is what a pod reports when the create call
    returns it. *)
Definition client (statuses : list ContainerStatus) : ClientInterface Cluster :=
  mkClient
    (fun namespace name => mutate name)
    (fun namespace p => create (withStatuses p statuses))
    (fun namespace name => mutate name)
    (fun service => create service).

Definition advance (d : Duration) (w : Cluster) : Cluster :=
  {| clock := clock w + d;
     podCache := podCache w;
     serviceCache := serviceCache w;
     apiError := apiError w;
     probeRunsFirst := probeRunsFirst w;
     probeSteps := probeSteps w |}.

Definition runtime : GoRuntime Cluster :=
  {| time_Now := fun w => (clock w, w);
     time_Sleep := advance;
     go_steps_first :=
       fun w => (if probeRunsFirst w then 13%nat else probeSteps w, w) |}.

Definition package : Package :=
  {| CatalogSourceLabelKey := "olm.catalogSource" |}.

Definition grpcReconciler (statuses : list ContainerStatus)
  : GrpcRegistryReconciler Cluster :=
  mkReconciler (fun w => (clock w, w)) lister (client statuses).

Definition hour : Duration := (3600 * Second)%Z.

(** A catalog source created at time 0, and the pod and service that serve
    it. *)
Definition catsrc (interval : Duration)
    (status : option RegistryServiceStatus) : CatalogSource :=
  {| cs_Name := "operators";
     cs_Namespace := "olm";
     cs_CreationTimestamp := 0;
     Spec_Image := "quay.io/operators:latest";
     Spec_Poll_Interval := interval;
     Status_RegistryServiceStatus := status |}.

Definition registryStatus : RegistryServiceStatus :=
  {| CreatedAt := 5 * hour;
     Protocol := "grpc";
     ServiceName := "operators";
     ServiceNamespace := "olm";
     Port := "50051" |}.

Definition servingPod (name image : string) (created : Time) : Pod :=
  {| pod_Name := name;
     pod_GenerateName := "";
     pod_Namespace := "olm";
     pod_Labels := {[ "olm.catalogSource" := "operators" ]};
     pod_OwnerReferences := [];
     pod_CreationTimestamp := created;
     pod_Containers := [ mkContainer "registry-server" image 5 10 ];
     pod_ContainerStatuses := [ mkContainerStatus "sha256:aaaa" ] |}.

Definition servingService : Service :=
  {| svc_Name := "operators";
     svc_Namespace := "olm";
     svc_Ports := [ mkServicePort "grpc" 50051 50051 ];
     svc_Selector := {[ "olm.catalogSource" := "operators" ]};
     svc_OwnerReferences := [] |}.

Definition start (w : Cluster) : State Cluster := mkState w [].

Definition image : string := "quay.io/operators:latest".

(** Never reconciled, polling off. *)
Definition fresh : CatalogSource := catsrc 0 None.

(** Reconciled before, polling off, respectively every hour. *)
Definition settled : CatalogSource := catsrc 0 (Some registryStatus).
Definition polled : CatalogSource := catsrc hour (Some registryStatus).

(** Ten hours after the creation of the catalog source: the cache holds the
    service and a pod that runs the declared image and was created a second
    ago. *)
Definition served (apiError : option error) (probeRunsFirst : bool) : Cluster :=
  {| clock := 10 * hour;
     podCache := Ok [servingPod "operators-x2x9k" image (10 * hour - Second)];
     serviceCache := Ok [servingService];
     apiError := apiError;
     probeRunsFirst := probeRunsFirst;
     probeSteps := 0 |}.

(** The same cluster with a second pod that runs another image. *)
Definition crowded : Cluster :=
  {| clock := 10 * hour;
     podCache := Ok [servingPod "operators-x2x9k" image (10 * hour - Second);
                     servingPod "operators-7hd4s" "quay.io/operators:old" 0];
     serviceCache := Ok [servingService];
     apiError := None;
     probeRunsFirst := false;
     probeSteps := 0 |}.

Definition refused : error := errorString "the server rejected the request".

(** The cache still holds the pod of the previous image, and the service. *)
Definition stale : Cluster :=
  {| clock := 10 * hour;
     podCache := Ok [servingPod "operators-7hd4s" "quay.io/operators:old" 0];
     serviceCache := Ok [servingService];
     apiError := None;
     probeRunsFirst := false;
     probeSteps := 0 |}.

(** A cache that lists a pod without containers. *)
Definition malformed : Cluster :=
  {| clock := 10 * hour;
     podCache := Ok [ {| pod_Name := "operators-empty";
                         pod_GenerateName := "";
                         pod_Namespace := "olm";
                         pod_Labels := {[ "olm.catalogSource" := "operators" ]};
                         pod_OwnerReferences := [];
                         pod_CreationTimestamp := 0;
                         pod_Containers := [];
                         pod_ContainerStatuses := [] |} ];
     serviceCache := Ok [servingService];
     apiError := None;
     probeRunsFirst := false;
     probeSteps := 0 |}.

(** The served cluster with a scheduler that gives a new goroutine [steps]
    steps before the receive that follows its go statement. *)
Definition scheduled (steps : nat) : Cluster :=
  {| clock := 10 * hour;
     podCache := Ok [servingPod "operators-x2x9k" image (10 * hour - Second)];
     serviceCache := Ok [servingService];
     apiError := None;
     probeRunsFirst := false;
     probeSteps := steps |}.

End scenarios.

(* ====================================================================== *)
(** ** Properties of pkg/lib/crd/version.go *)
(* ====================================================================== *)

Section crd_properties.

Import crd.

Lemma elem_of_insertStored_acc (versions : list string) (m : gset string)
    (name : string) :
  name ∈ foldl (fun m version => {[ version ]} ∪ m) m versions
  ↔ name ∈ versions ∨ name ∈ m.
Proof.
  revert m. induction versions as [|v versions IH]; intros m; simpl.
  - split; [by right|]. intros [H|H]; [by apply elem_of_nil in H|done].
  - rewrite IH, elem_of_union, elem_of_singleton, elem_of_cons. tauto.
Qed.

Lemma elem_of_insertStored (versions : list string) (name : string) :
  name ∈ insertStored versions ↔ name ∈ versions.
Proof.
  unfold insertStored. rewrite elem_of_insertStored_acc, elem_of_empty. tauto.
Qed.

Lemma elem_of_insertStorage_acc
    (versions : list CustomResourceDefinitionVersion) (m : gset string)
    (name : string) :
  name ∈ foldl (fun m version =>
                  if Storage version then {[ Name version ]} ∪ m else m)
               m versions
  ↔ (∃ v, v ∈ versions ∧ Storage v = true ∧ Name v = name) ∨ name ∈ m.
Proof.
  revert m. induction versions as [|v versions IH]; intros m; simpl.
  - split; [auto|]. intros [(v & Hv & _)|H]; [|done]. by apply elem_of_nil in Hv.
  - rewrite IH. split.
    + intros [(v' & Hin & Hs & Hn)|H].
      * left. exists v'. split; [by apply elem_of_cons; right|done].
      * destruct (Storage v) eqn:Hs; [|by right].
        apply elem_of_union in H as [H|H]; [|by right].
        apply elem_of_singleton in H. left. exists v.
        split; [by apply elem_of_cons; left|done].
    + intros [(v' & Hin & Hs & Hn)|H].
      * apply elem_of_cons in Hin as [->|Hin].
        -- right. rewrite Hs. apply elem_of_union. left.
           by apply elem_of_singleton.
        -- left. by exists v'.
      * right. destruct (Storage v); [|done]. apply elem_of_union. by right.
Qed.

Lemma elem_of_insertStorage
    (versions : list CustomResourceDefinitionVersion) (name : string) :
  name ∈ insertStorage versions
  ↔ ∃ v, v ∈ versions ∧ Storage v = true ∧ Name v = name.
Proof.
  unfold insertStorage. rewrite elem_of_insertStorage_acc, elem_of_empty.
  tauto.
Qed.

(** The loop answers false exactly when it meets a name of the new set,
    whatever the order of the iteration. *)
Lemma rangeOldStoredVersions_false (names : list string) (new : gset string) :
  rangeOldStoredVersions names new = false
  ↔ ∃ name, name ∈ names ∧ name ∈ new.
Proof.
  induction names as [|n names IH]; simpl.
  - split; [done|]. intros (name & H & _). by apply elem_of_nil in H.
  - case_bool_decide as Hn.
    + split; [|done]. intros _. exists n. split; [by left|done].
    + rewrite IH. split.
      * intros (name & H1 & H2). exists name. split; [by right|done].
      * intros (name & H1 & H2). apply elem_of_cons in H1 as [->|H1]; [done|].
        by exists name.
Qed.

Lemma rangeOldStoredVersions_Permutation (names names' : list string)
    (new : gset string) :
  names ≡ₚ names' →
  rangeOldStoredVersions names new = rangeOldStoredVersions names' new.
Proof.
  intros Hp.
  destruct (rangeOldStoredVersions names new) eqn:E1,
           (rangeOldStoredVersions names' new) eqn:E2; try done.
  - apply rangeOldStoredVersions_false in E2 as (n & H1 & H2).
    assert (rangeOldStoredVersions names new = false) as E; [|congruence].
    apply rangeOldStoredVersions_false. exists n. by rewrite Hp.
  - apply rangeOldStoredVersions_false in E1 as (n & H1 & H2).
    assert (rangeOldStoredVersions names' new = false) as E; [|congruence].
    apply rangeOldStoredVersions_false. exists n. by rewrite <- Hp.
Qed.

Lemma RunStorageMigration_false (so sn : SchemaVariant)
    (old new : CustomResourceDefinition) :
  RunStorageMigration (asObject so old) (asObject sn new) = false
  ↔ sharesStorageVersion old new.
Proof.
  unfold RunStorageMigration, sharesStorageVersion.
  destruct so, sn; simpl; rewrite rangeOldStoredVersions_false;
    (split; intros (name & H1 & H2); exists name;
     [ apply elem_of_elements, elem_of_insertStored in H1;
       apply elem_of_insertStorage in H2; done
     | split; [by apply elem_of_elements, elem_of_insertStored
              | by apply elem_of_insertStorage] ]).
Qed.

(** C1.  For CRD descriptors of either schema variant, RunStorageMigration
    answers false when a name of the old CRD's status.storedVersions is the
    name of a storage-flagged version of the new CRD, and true otherwise; in
    particular it answers true when the old CRD has no stored version. *)
Theorem RunStorageMigration_decision (so sn : SchemaVariant)
    (old new : CustomResourceDefinition) :
  (RunStorageMigration (asObject so old) (asObject sn new) = false
   ↔ sharesStorageVersion old new)
  ∧ (RunStorageMigration (asObject so old) (asObject sn new) = true
     ↔ ¬ sharesStorageVersion old new)
  ∧ (Status_StoredVersions old = [] →
     RunStorageMigration (asObject so old) (asObject sn new) = true).
Proof.
  pose proof (RunStorageMigration_false so sn old new) as Hf.
  split; [done|]. split.
  - rewrite <- Hf. by destruct (RunStorageMigration _ _).
  - intros Hnil. apply not_false_iff_true. rewrite Hf.
    intros (name & H & _). rewrite Hnil in H. by apply elem_of_nil in H.
Qed.

(** The examples of the specification. *)
Example RunStorageMigration_examples :
  let new := mkCRD [mkVersion "v1alpha1" false; mkVersion "v1" true] [] in
  RunStorageMigration (apiextensionsv1 (mkCRD [] ["v1alpha1"; "v1"]))
                      (apiextensionsv1 new) = false
  ∧ RunStorageMigration (apiextensionsv1beta1 (mkCRD [] ["v1alpha1"]))
                        (apiextensionsv1 new) = true
  ∧ RunStorageMigration (apiextensionsv1 (mkCRD [] []))
                        (apiextensionsv1beta1 new) = true.
Proof. vm_compute. done. Qed.

Example GetNewStorageVersion_examples :
  GetNewStorageVersion
    (apiextensionsv1 (mkCRD [mkVersion "v1" false; mkVersion "v2" true] []))
  = "v2"
  ∧ GetNewStorageVersion
      (apiextensionsv1beta1 (mkCRD [mkVersion "v1" false] [])) = "".
Proof. split; reflexivity. Qed.

Lemma elem_of_supportedCRDVersions (v : string) :
  v ∈ supportedCRDVersions ↔ v = "v1" ∨ v = "v1beta1".
Proof.
  unfold supportedCRDVersions, V1Beta1Version, V1Version.
  rewrite elem_of_union, !elem_of_singleton. tauto.
Qed.

(** C6.  Version fails on an absent manifest.  On a manifest that decodes it
    returns the version of the document's group-version-kind when that is
    "v1" or "v1beta1" and fails with the unsupported-version error for any
    other value; nothing else of the document is looked at: two documents
    with the same version get the same answer. *)
Theorem Version_detects_api_version (Unstructured : Type)
    (Decode : string → result Unstructured)
    (GetGroupVersionKind : Unstructured → GroupVersionKind)
    (m : string) (unst : Unstructured) :
  Decode m = Ok unst →
  let v := gvk_Version (GetGroupVersionKind unst) in
  Version Decode GetGroupVersionKind None
    = Err (errorString "empty CRD manifest")
  ∧ (v = "v1" ∨ v = "v1beta1" →
     Version Decode GetGroupVersionKind (Some m) = Ok v)
  ∧ (¬ (v = "v1" ∨ v = "v1beta1") →
     Version Decode GetGroupVersionKind (Some m)
       = Err (errorString
                ("CRD APIVersion from manifest not supported: " +:+ v)))
  ∧ (∀ m' unst',
       Decode m' = Ok unst' →
       gvk_Version (GetGroupVersionKind unst') = v →
       Version Decode GetGroupVersionKind (Some m')
         = Version Decode GetGroupVersionKind (Some m)).
Proof.
  intros Hdec v. split; [done|]. unfold Version. rewrite Hdec. fold v.
  split; [|split].
  - intros Hv. by rewrite bool_decide_eq_true_2
      by (by apply elem_of_supportedCRDVersions).
  - intros Hv. by rewrite bool_decide_eq_false_2
      by (by rewrite elem_of_supportedCRDVersions).
  - intros m' unst' Hdec' Hv. by rewrite Hdec', Hv.
Qed.

(** A manifest that does not decode fails with the decoder's error. *)
Lemma Version_decode_error (Unstructured : Type)
    (Decode : string → result Unstructured)
    (GetGroupVersionKind : Unstructured → GroupVersionKind)
    (m : string) (err : error) :
  Decode m = Err err →
  Version Decode GetGroupVersionKind (Some m) = Err err.
Proof. intros Hdec. unfold Version. by rewrite Hdec. Qed.

Lemma Version_detects_api_version_witness :
  Version scenarios.Decode scenarios.GetGroupVersionKind (Some "v1beta1")
    = Ok "v1beta1"
  ∧ Version scenarios.Decode scenarios.GetGroupVersionKind (Some "v2")
    = Err (errorString "CRD APIVersion from manifest not supported: v2").
Proof.
  pose proof (Version_detects_api_version _ scenarios.Decode
                scenarios.GetGroupVersionKind "v1beta1" _ eq_refl) as H1.
  pose proof (Version_detects_api_version _ scenarios.Decode
                scenarios.GetGroupVersionKind "v2" _ eq_refl) as H2.
  split.
  - apply H1. right. reflexivity.
  - apply H2. intros [H|H]; discriminate H.
Defined.

(** *** More on the storage version *)

Lemma firstStorage_first (versions : list CustomResourceDefinitionVersion) :
  (Forall (fun v => Storage v = false) versions ∧ firstStorage versions = "")
  ∨ ∃ pre v post,
      versions = (pre ++ v :: post)%list
      ∧ Forall (fun v => Storage v = false) pre
      ∧ Storage v = true
      ∧ firstStorage versions = Name v.
Proof.
  induction versions as [|v versions IH]; simpl.
  - left. by split.
  - destruct (Storage v) eqn:Hs.
    + right. exists [], v, versions. by split_and!.
    + destruct IH as [[Hall Hnone]|(pre & v' & post & -> & Hpre & Hv' & Hfirst)].
      * left. split; [by constructor|done].
      * right. exists (v :: pre), v', post. split_and!; try done.
        by constructor.
Qed.

(** X1.  GetNewStorageVersion answers with the name of the first version
    of spec.versions that is flagged as storage version, whatever follows
    it; when no version is flagged it answers the empty string. *)
Theorem GetNewStorageVersion_first (s : SchemaVariant)
    (crd : CustomResourceDefinition) :
  (Forall (fun v => Storage v = false) (Spec_Versions crd)
   ∧ GetNewStorageVersion (asObject s crd) = "")
  ∨ ∃ pre v post,
      Spec_Versions crd = (pre ++ v :: post)%list
      ∧ Forall (fun v => Storage v = false) pre
      ∧ Storage v = true
      ∧ GetNewStorageVersion (asObject s crd) = Name v.
Proof. destruct s; apply firstStorage_first. Qed.

Lemma firstStorage_flagged (versions : list CustomResourceDefinitionVersion) :
  (∃ v, v ∈ versions ∧ Storage v = true) →
  ∃ v, v ∈ versions ∧ Storage v = true ∧ Name v = firstStorage versions.
Proof.
  intros (v & Hin & Hs).
  destruct (firstStorage_first versions)
    as [[Hall _]|(pre & v' & post & -> & _ & Hv' & Hfirst)].
  - rewrite Forall_forall in Hall. apply Hall in Hin. congruence.
  - exists v'. split_and!; try done. apply elem_of_app. right. left.
Qed.

(** X2.  When the new CRD flags a storage version and all the versions it
    flags carry the name GetNewStorageVersion reports, RunStorageMigration
    answers false exactly when that name is among the stored versions of
    the old CRD. *)
Theorem RunStorageMigration_by_storage_version (so sn : SchemaVariant)
    (old new : CustomResourceDefinition) :
  (∃ v, v ∈ Spec_Versions new ∧ Storage v = true) →
  (∀ v, v ∈ Spec_Versions new → Storage v = true →
        Name v = GetNewStorageVersion (asObject sn new)) →
  RunStorageMigration (asObject so old) (asObject sn new) = false
  ↔ GetNewStorageVersion (asObject sn new) ∈ Status_StoredVersions old.
Proof.
  intros Hsome Hone. rewrite RunStorageMigration_false.
  unfold sharesStorageVersion. split.
  - intros (name & Hin & v & Hv & Hs & <-). by rewrite <- (Hone v).
  - intros Hin. eexists. split; [exact Hin|].
    destruct Hsome as (v & Hv & Hs). exists v. split_and!; try done.
    by apply Hone.
Qed.

Lemma rangeOldStoredVersions_empty (names : list string) :
  rangeOldStoredVersions names ∅ = true.
Proof.
  apply not_false_iff_true. rewrite rangeOldStoredVersions_false.
  intros (name & _ & H). by apply elem_of_empty in H.
Qed.

(** X3.  An object that is a CRD of neither schema variant contributes no
    version: with such an object as the old or as the new one,
    RunStorageMigration answers true, and GetNewStorageVersion answers the
    empty string. *)
Theorem RunStorageMigration_not_a_CRD (o : Object) :
  RunStorageMigration otherObject o = true
  ∧ RunStorageMigration o otherObject = true
  ∧ GetNewStorageVersion otherObject = "".
Proof.
  split_and!; [| |done].
  - unfold RunStorageMigration. simpl. by rewrite elements_empty.
  - unfold RunStorageMigration. simpl. apply rangeOldStoredVersions_empty.
Qed.

(** X4.  The answer of RunStorageMigration does not depend on the order in
    which the range statement delivers the keys of the old map. *)
Theorem RunStorageMigration_any_iteration_order (oldCRD newCRD : Object)
    (names : list string) :
  names ≡ₚ elements (getStoredVersions oldCRD newCRD).2 →
  rangeOldStoredVersions names (getStoredVersions oldCRD newCRD).1
  = RunStorageMigration oldCRD newCRD.
Proof.
  intros Hperm. unfold RunStorageMigration.
  destruct (getStoredVersions oldCRD newCRD) as [new old]. simpl in *.
  by apply rangeOldStoredVersions_Permutation.
Qed.

(** X5.  RunStorageMigration looks at its two CRDs through the set of
    stored versions and the set of storage-flagged names only: the order
    of the lists, repetitions in them, versions that are not flagged and
    the schema variant do not change the answer. *)
Theorem RunStorageMigration_same_sets (so sn so' sn' : SchemaVariant)
    (old new old' new' : CustomResourceDefinition) :
  (∀ name, name ∈ Status_StoredVersions old ↔ name ∈ Status_StoredVersions old') →
  (∀ name, (∃ v, v ∈ Spec_Versions new ∧ Storage v = true ∧ Name v = name)
           ↔ (∃ v, v ∈ Spec_Versions new' ∧ Storage v = true ∧ Name v = name)) →
  RunStorageMigration (asObject so old) (asObject sn new)
  = RunStorageMigration (asObject so' old') (asObject sn' new').
Proof.
  intros Hold Hnew.
  assert (sharesStorageVersion old new ↔ sharesStorageVersion old' new') as Hiff.
  { unfold sharesStorageVersion. split; intros (name & Hin & Hv);
      exists name; (split; [by apply Hold|by apply Hnew]). }
  pose proof (RunStorageMigration_false so sn old new) as H1.
  pose proof (RunStorageMigration_false so' sn' old' new') as H2.
  destruct (RunStorageMigration (asObject so old) (asObject sn new)),
           (RunStorageMigration (asObject so' old') (asObject sn' new'));
    try done.
  - assert (sharesStorageVersion old new) as H by (by apply Hiff, H2).
    by apply H1 in H.
  - assert (sharesStorageVersion old' new') as H by (by apply Hiff, H1).
    by apply H2 in H.
Qed.

(** X6.  Version succeeds in one way only: the manifest is present, it
    decodes, and the version of its group-version-kind, which is what is
    returned, is v1 or v1beta1. *)
Theorem Version_success (Unstructured : Type)
    (Decode : string → result Unstructured)
    (GetGroupVersionKind : Unstructured → GroupVersionKind)
    (manifest : option string) (v : string) :
  Version Decode GetGroupVersionKind manifest = Ok v
  ↔ ∃ m unst,
      manifest = Some m ∧ Decode m = Ok unst
      ∧ gvk_Version (GetGroupVersionKind unst) = v
      ∧ (v = "v1" ∨ v = "v1beta1").
Proof.
  unfold Version. split.
  - destruct manifest as [m|]; [|done].
    destruct (Decode m) as [unst|e] eqn:Hdec; [|done].
    case_bool_decide as Hv; [|done]. intros [= <-].
    exists m, unst. split_and!; try done.
    by apply elem_of_supportedCRDVersions.
  - intros (m & unst & -> & -> & <- & Hv).
    by rewrite bool_decide_eq_true_2 by (by apply elem_of_supportedCRDVersions).
Qed.

Lemma RunStorageMigration_by_storage_version_witness :
  RunStorageMigration
    (apiextensionsv1beta1 (mkCRD [] ["v1alpha1"; "v1"]))
    (apiextensionsv1 (mkCRD [mkVersion "v1alpha1" false; mkVersion "v1" true] []))
  = false
  ↔ "v1" ∈ ["v1alpha1"; "v1"].
Proof.
  apply (RunStorageMigration_by_storage_version V1Beta1 V1
           (mkCRD [] ["v1alpha1"; "v1"])
           (mkCRD [mkVersion "v1alpha1" false; mkVersion "v1" true] [])).
  - exists (mkVersion "v1" true). split; [|reflexivity].
    apply elem_of_cons. right. apply elem_of_cons. left. reflexivity.
  - intros v Hin Hs. simpl in Hin.
    apply elem_of_cons in Hin as [->|Hin]; [discriminate Hs|].
    apply elem_of_cons in Hin as [->|Hin]; [reflexivity|].
    apply elem_of_nil in Hin. destruct Hin.
Defined.

Lemma RunStorageMigration_any_iteration_order_witness :
  let old := apiextensionsv1 (mkCRD [] ["v1alpha1"; "v1"; "v1beta2"]) in
  let new := apiextensionsv1 (mkCRD [mkVersion "v1" true] []) in
  rangeOldStoredVersions (reverse (elements (getStoredVersions old new).2))
    (getStoredVersions old new).1
  = RunStorageMigration old new.
Proof.
  intros old new.
  apply (RunStorageMigration_any_iteration_order old new).
  apply reverse_Permutation.
Defined.

Lemma RunStorageMigration_same_sets_witness :
  RunStorageMigration
    (apiextensionsv1 (mkCRD [] ["v1"; "v1alpha1"; "v1"]))
    (apiextensionsv1 (mkCRD [mkVersion "v1" true] []))
  = RunStorageMigration
      (apiextensionsv1beta1 (mkCRD [] ["v1alpha1"; "v1"]))
      (apiextensionsv1beta1 (mkCRD [mkVersion "v1" true] [])).
Proof.
  apply (RunStorageMigration_same_sets V1 V1 V1Beta1 V1Beta1
           (mkCRD [] ["v1"; "v1alpha1"; "v1"]) (mkCRD [mkVersion "v1" true] [])
           (mkCRD [] ["v1alpha1"; "v1"]) (mkCRD [mkVersion "v1" true] [])).
  - intros name. simpl. rewrite !elem_of_cons, elem_of_nil. tauto.
  - intros name. reflexivity.
Defined.

End crd_properties.

(* ====================================================================== *)
(** ** Properties of pkg/controller/registry/reconciler/grpc.go *)
(* ====================================================================== *)

Section reconciler_properties.

Import reconciler.

Context {W : Type} {runtime : GoRuntime W} {package : Package}.

Implicit Types (c : GrpcRegistryReconciler W) (st : State W).
Implicit Types (cs source : CatalogSource) (p : Pod).

(** *** Running computations *)

Lemma bind_run {A B} (m : M W A) (f : A → M W B) st :
  (m ≫= f) st = match m st with
                | Return a st' => f a st'
                | Panic st' => Panic st'
                end.
Proof. reflexivity. Qed.

Lemma bind_Return {A B} (m : M W A) (f : A → M W B) st a st' :
  m st = Return a st' → (m ≫= f) st = f a st'.
Proof. intros H. by rewrite bind_run, H. Qed.

Lemma bind_Panic {A B} (m : M W A) (f : A → M W B) st st' :
  m st = Panic st' → (m ≫= f) st = Panic st'.
Proof. intros H. by rewrite bind_run, H. Qed.

Lemma ret_run {A} (a : A) st : (mret a : M W A) st = Return a st.
Proof. reflexivity. Qed.

Lemma read_run {A} (f : W → A) st : read f st = Return (f (world st)) st.
Proof. reflexivity. Qed.

(** *** What the cache shows *)

Lemma currentService_run c cs st :
  currentService c cs st = Return (cachedService c cs (world st)) st.
Proof.
  unfold currentService, cachedService. rewrite bind_run, read_run. simpl.
  by destruct (ServiceLister_Get _ _ _ _).
Qed.

Lemma currentPods_run c cs st :
  currentPods c cs st = Return (cachedPods c cs (world st)) st.
Proof.
  unfold currentPods, cachedPods. rewrite bind_run, read_run.
  by destruct (PodLister_List _ _ _ _).
Qed.

Lemma rangeCorrectImage_run image (pods found : list Pod) st :
  Forall hasContainer pods →
  rangeCorrectImage image pods found st
  = Return (found ++ filter (fun p => firstImage p = Some image) pods)%list st.
Proof.
  intros Hall. revert found.
  induction Hall as [|p pods Hp _ IH]; intros found; simpl.
  - by rewrite app_nil_r.
  - unfold hasContainer in Hp. rewrite bind_run. unfold firstImage at 1.
    destruct (pod_Containers p) as [|c0 cont] eqn:Hc; [done|]. simpl.
    rewrite filter_cons. unfold firstImage at 1. rewrite Hc. simpl.
    case_bool_decide as Himg.
    + rewrite IH, decide_True by congruence. by rewrite <- app_assoc.
    + rewrite IH, decide_False by congruence. done.
Qed.

Lemma rangeCorrectImage_panic image (pods found : list Pod) st :
  ¬ Forall hasContainer pods →
  rangeCorrectImage image pods found st = Panic st.
Proof.
  revert found. induction pods as [|p pods IH]; intros found Hnot; simpl.
  - by destruct Hnot.
  - rewrite bind_run. destruct (pod_Containers p) as [|c0 cont] eqn:Hc; [done|].
    simpl. assert (¬ Forall hasContainer pods) as Hrest.
    { intros Hall. apply Hnot. constructor; [|done].
      unfold hasContainer. by rewrite Hc. }
    case_bool_decide; by apply IH.
Qed.

Lemma currentPodsWithCorrectImage_run c cs st :
  Forall hasContainer (cachedPods c cs (world st)) →
  currentPodsWithCorrectImage c cs st
  = Return (filter (fun p => firstImage p = Some (Spec_Image cs))
                   (cachedPods c cs (world st))) st.
Proof.
  unfold currentPodsWithCorrectImage, cachedPods. rewrite bind_run, read_run.
  unfold decorator_Selector, SelectorFromValidatedSet, decorator_Labels.
  destruct (PodLister_List _ _ _ _) as [pods|e]; [|done].
  intros Hall. by rewrite rangeCorrectImage_run.
Qed.

Lemma currentPodsWithCorrectImage_panic c cs st :
  ¬ Forall hasContainer (cachedPods c cs (world st)) →
  currentPodsWithCorrectImage c cs st = Panic st.
Proof.
  unfold currentPodsWithCorrectImage, cachedPods. rewrite bind_run, read_run.
  unfold decorator_Selector, SelectorFromValidatedSet, decorator_Labels.
  destruct (PodLister_List _ _ _ _) as [pods|e].
  - apply rangeCorrectImage_panic.
  - intros Hnot. destruct Hnot. constructor.
Qed.

(** *** The health check *)

(** C7.  When every cached pod that matches the canonical label has a first
    container, CheckRegistryServer returns without an error and answers true
    exactly when the cache lists a pod whose first container runs the
    declared image and also holds the service. *)
Theorem CheckRegistryServer_healthy_iff c cs st :
  (∀ pods,
     PodLister_List (Lister c) (world st) (cs_Namespace cs)
       (decorator_Selector cs) = Ok pods →
     Forall hasContainer pods) →
  ∃ healthy : bool,
    CheckRegistryServer c cs st = Return (healthy, None) st
    ∧ (healthy = true
       ↔ (∃ pods p,
            PodLister_List (Lister c) (world st) (cs_Namespace cs)
              (decorator_Selector cs) = Ok pods
            ∧ p ∈ pods ∧ firstImage p = Some (Spec_Image cs))
         ∧ (∃ service,
              ServiceLister_Get (Lister c) (world st) (cs_Namespace cs)
                (cs_Name cs) = Ok service)).
Proof.
  intros Hwf.
  assert (Forall hasContainer (cachedPods c cs (world st))) as Hall.
  { unfold cachedPods. destruct (PodLister_List _ _ _ _) eqn:E; [eauto|constructor]. }
  unfold CheckRegistryServer.
  rewrite (bind_Return _ _ _ _ _ (currentPodsWithCorrectImage_run c cs st Hall)).
  set (found := filter _ _).
  assert (found ≠ [] ↔
          ∃ pods p, PodLister_List (Lister c) (world st) (cs_Namespace cs)
                      (decorator_Selector cs) = Ok pods
                    ∧ p ∈ pods ∧ firstImage p = Some (Spec_Image cs)) as Hfound.
  { subst found. unfold cachedPods.
    destruct (PodLister_List _ _ _ _) as [pods|e] eqn:E.
    - split.
      + intros Hne. destruct (filter _ pods) as [|p l] eqn:Hf; [done|].
        assert (p ∈ filter (fun p => firstImage p = Some (Spec_Image cs)) pods)
          as Hin by (rewrite Hf; left).
        apply list_elem_of_filter in Hin as [? ?]. eauto.
      + intros (pods' & p & [= <-] & Hin & Himg) Hnil.
        assert (p ∈ filter (fun p => firstImage p = Some (Spec_Image cs)) pods)
          as Hin' by (by apply list_elem_of_filter).
        rewrite Hnil in Hin'. by apply elem_of_nil in Hin'.
    - split; [done|]. by intros (? & ? & ? & _). }
  case_bool_decide as Hlen.
  - exists false. split; [done|]. split; [done|]. intros [Hp _].
    apply Hfound in Hp. destruct found; simpl in Hlen; [done|lia].
  - rewrite (bind_Return _ _ _ _ _ (currentService_run c cs st)).
    assert (found ≠ []) as Hne by (destruct found; simpl in Hlen; [lia|done]).
    unfold cachedService.
    destruct (ServiceLister_Get _ _ _ _) as [service|e] eqn:E.
    + exists true. split; [done|]. split; [|done]. intros _.
      split; [by apply Hfound|eauto].
    + exists false. split; [done|]. split; [done|]. by intros [_ [? ?]].
Qed.

(** *** Lookups that fail *)

Lemma bind_ext {A B} (m m' : M W A) (f f' : A → M W B) st :
  m st = m' st → (∀ a st', f a st' = f' a st') →
  (m ≫= f) st = (m' ≫= f') st.
Proof.
  intros Hm Hf. rewrite !bind_run, Hm. by destruct (m' st).
Qed.

Lemma currentPodsWithCorrectImage_cached c cs st :
  currentPodsWithCorrectImage c cs st
  = rangeCorrectImage (Spec_Image cs) (cachedPods c cs (world st)) [] st.
Proof.
  unfold currentPodsWithCorrectImage, cachedPods. rewrite bind_run, read_run.
  unfold decorator_Selector, SelectorFromValidatedSet, decorator_Labels.
  by destruct (PodLister_List _ _ _ _).
Qed.

Section same_cache_view.

(** Two reconcilers that differ in their lister only, and whose listers show
    the same pods and services once failures are read as absence. *)
Variables c1 c2 : GrpcRegistryReconciler W.
Hypothesis same_now : now c1 = now c2.
Hypothesis same_client : OpClient c1 = OpClient c2.
Hypothesis same_pods : ∀ cs w, cachedPods c1 cs w = cachedPods c2 cs w.
Hypothesis same_service : ∀ cs w, cachedService c1 cs w = cachedService c2 cs w.

Lemma currentPodsWithCorrectImage_view cs st :
  currentPodsWithCorrectImage c1 cs st = currentPodsWithCorrectImage c2 cs st.
Proof. by rewrite !currentPodsWithCorrectImage_cached, same_pods. Qed.

Lemma currentPods_view cs st : currentPods c1 cs st = currentPods c2 cs st.
Proof. by rewrite !currentPods_run, same_pods. Qed.

Lemma currentService_view cs st :
  currentService c1 cs st = currentService c2 cs st.
Proof. by rewrite !currentService_run, same_service. Qed.

Lemma rangeDeletePods_view namespace pods st :
  rangeDeletePods c1 namespace pods st = rangeDeletePods c2 namespace pods st.
Proof.
  revert st. induction pods as [|p pods IH]; intros st; simpl; [done|].
  apply bind_ext; [by rewrite same_client|].
  intros [e|] st'; [done|apply IH].
Qed.

Lemma createPod_view cs st : createPod c1 cs st = createPod c2 cs st.
Proof. unfold createPod. by rewrite same_client. Qed.

Lemma ensurePod_view cs overwrite st :
  ensurePod c1 cs overwrite st = ensurePod c2 cs overwrite st.
Proof.
  unfold ensurePod. apply bind_ext; [apply currentPods_view|].
  intros [|p pods] st'; [apply createPod_view|].
  destruct overwrite; cbn [negb]; [|done].
  apply bind_ext; [apply rangeDeletePods_view|].
  intros [e|] st''; [done|apply createPod_view].
Qed.

Lemma createService_view service st :
  createService c1 service st = createService c2 service st.
Proof. unfold createService. by rewrite same_client. Qed.

Lemma ensureService_view cs overwrite st :
  ensureService c1 cs overwrite st = ensureService c2 cs overwrite st.
Proof.
  unfold ensureService. apply bind_ext; [apply currentService_view|].
  intros [service|] st'; [|apply createService_view].
  destruct overwrite; cbn [negb]; [|done].
  apply bind_ext; [by rewrite same_client|].
  intros [e|] st''; [done|apply createService_view].
Qed.

Lemma getPodDigest_view cs st : getPodDigest c1 cs st = getPodDigest c2 cs st.
Proof. unfold getPodDigest. by rewrite same_client. Qed.

Lemma stepProbe_view cs (p : Probe) st : stepProbe c1 cs p st = stepProbe c2 cs p st.
Proof. destruct p; simpl; by rewrite ?same_client. Qed.

Lemma runProbe_view cs steps (p : Probe) st :
  runProbe c1 cs steps p st = runProbe c2 cs steps p st.
Proof.
  revert p st. induction steps as [|n IH]; intros p st; simpl; [done|].
  apply bind_ext; [apply stepProbe_view|]. intros p' st'. apply IH.
Qed.

Lemma updateRegistryPodByDigest_view cs st :
  updateRegistryPodByDigest c1 cs st = updateRegistryPodByDigest c2 cs st.
Proof.
  unfold updateRegistryPodByDigest. case_bool_decide; [done|].
  apply bind_ext; [done|]. intros t st1.
  apply bind_ext; [done|]. intros gate st2.
  apply bind_ext; [|done]. destruct gate; [|done].
  apply bind_ext; [done|]. intros _ st3. unfold go_getPodDigest, emit.
  apply bind_ext; [done|]. intros _ st4.
  apply bind_ext; [done|]. intros steps st5.
  apply bind_ext; [apply runProbe_view|done].
Qed.

Lemma EnsureRegistryServer_view cs st :
  EnsureRegistryServer c1 cs st = EnsureRegistryServer c2 cs st.
Proof.
  unfold EnsureRegistryServer. apply bind_ext.
  - destruct (Status_RegistryServiceStatus cs); [|done].
    apply bind_ext; [apply currentPodsWithCorrectImage_view|].
    intros found st1. case_bool_decide; [done|].
    apply updateRegistryPodByDigest_view.
  - intros overwritePod st1. apply bind_ext; [apply ensurePod_view|].
    intros err st2. destruct (Wrapf err _); [done|].
    apply bind_ext; [apply ensureService_view|].
    intros err' st3. destruct (Wrapf err' _); [done|].
    destruct overwritePod; [|done]. by rewrite same_now.
Qed.

Lemma CheckRegistryServer_view cs st :
  CheckRegistryServer c1 cs st = CheckRegistryServer c2 cs st.
Proof.
  unfold CheckRegistryServer.
  apply bind_ext; [apply currentPodsWithCorrectImage_view|].
  intros found st1. case_bool_decide; [done|].
  apply bind_ext; [apply currentService_view|]. done.
Qed.

End same_cache_view.

(** A failed lookup reads as absence, whatever the lister and the error. *)
Lemma currentPods_read_error c cs st e :
  PodLister_List (Lister c) (world st) (cs_Namespace cs) (decorator_Selector cs)
    = Err e →
  currentPods c cs st = Return [] st
  ∧ currentPodsWithCorrectImage c cs st = Return [] st.
Proof.
  intros Herr. rewrite currentPods_run, currentPodsWithCorrectImage_cached.
  unfold cachedPods. by rewrite Herr.
Qed.

Lemma currentService_read_error c cs st e :
  ServiceLister_Get (Lister c) (world st) (cs_Namespace cs) (cs_Name cs) = Err e →
  currentService c cs st = Return None st.
Proof.
  intros Herr. rewrite currentService_run. unfold cachedService. by rewrite Herr.
Qed.

(** C8.  Each lookup of the reconciler answers a failing cache as it answers
    an empty one, a nil service and no pod, and returns no error; so
    EnsureRegistryServer and CheckRegistryServer do the same under a failing
    cache as under an empty cache. *)
Theorem lookup_failure_is_absence c cs st (errPods errService : error)
    (notFound : string → error) :
  let failing := withLister c (failingLister errPods errService) in
  let empty := withLister c (emptyLister notFound) in
  (currentService failing cs st = Return None st
   ∧ currentService empty cs st = Return None st)
  ∧ (currentPods failing cs st = Return [] st
     ∧ currentPods empty cs st = Return [] st)
  ∧ (currentPodsWithCorrectImage failing cs st = Return [] st
     ∧ currentPodsWithCorrectImage empty cs st = Return [] st)
  ∧ EnsureRegistryServer failing cs st = EnsureRegistryServer empty cs st
  ∧ CheckRegistryServer failing cs st = CheckRegistryServer empty cs st.
Proof.
  intros failing empty.
  split_and!;
    [ reflexivity | reflexivity | reflexivity | reflexivity
    | reflexivity | reflexivity
    | by apply EnsureRegistryServer_view
    | by apply CheckRegistryServer_view ].
Qed.

(** *** What a successful call has issued *)

Lemma call_run {A} (e : Event) (op : W → A * W) st :
  call e op st
  = Return (op (world st)).1 (mkState (op (world st)).2 (trace st ++ [e])).
Proof. unfold call. by destruct (op (world st)). Qed.

Lemma lift_run {A} (op : W → A * W) st :
  lift op st = Return (op (world st)).1 (mkState (op (world st)).2 (trace st)).
Proof. unfold lift. by destruct (op (world st)). Qed.

(** Splits a hypothesis [(m ≫= f) st = Return _ _] at its first step. *)
Ltac step_in H a st' E :=
  rewrite bind_run in H;
  match type of H with
  | match ?m with _ => _ end = _ =>
      destruct m as [a st'|st'] eqn:E; [|discriminate H]
  end.

Lemma rangeDeletePods_trace c namespace pods st st' :
  rangeDeletePods c namespace pods st = Return None st' →
  trace st' = (trace st ++ deletions namespace pods)%list.
Proof.
  revert st. induction pods as [|p pods IH]; intros st Hrun; simpl in *.
  - injection Hrun as <-. by rewrite app_nil_r.
  - step_in Hrun err st1 E. rewrite call_run in E. injection E as <- <-.
    destruct (client_Pods_Delete _ _ _ _).1; [discriminate|].
    apply IH in Hrun. rewrite Hrun. simpl. by rewrite <- app_assoc.
Qed.

Lemma createPod_trace c cs st st' :
  createPod c cs st = Return None st' →
  trace st' = (trace st ++ [Pods_Create (cs_Namespace cs) (decorator_Pod cs)])%list.
Proof.
  unfold createPod. intros Hrun. step_in Hrun r st1 E.
  rewrite call_run in E. injection E as <- <-.
  destruct (client_Pods_Create _ _ _ _).1; [|discriminate].
  by injection Hrun as <-.
Qed.

Lemma ensurePod_overwrite_trace c cs st st' :
  ensurePod c cs true st = Return None st' →
  trace st'
  = (trace st ++ deletions (cs_Namespace cs) (cachedPods c cs (world st))
       ++ [Pods_Create (cs_Namespace cs) (decorator_Pod cs)])%list.
Proof.
  unfold ensurePod. rewrite (bind_Return _ _ _ _ _ (currentPods_run c cs st)).
  destruct (cachedPods c cs (world st)) as [|p pods].
  - apply createPod_trace.
  - cbn [negb]. intros Hrun. step_in Hrun err st1 E.
    destruct err as [e|]; [discriminate|].
    apply rangeDeletePods_trace in E. apply createPod_trace in Hrun.
    rewrite Hrun, E. by rewrite <- app_assoc.
Qed.

Lemma createService_trace c service st st' :
  createService c service st = Return None st' →
  trace st' = (trace st ++ [CreateService service])%list.
Proof.
  unfold createService. intros Hrun. step_in Hrun r st1 E.
  rewrite call_run in E. injection E as <- <-.
  destruct (client_CreateService _ _ _).1; [|discriminate].
  by injection Hrun as <-.
Qed.

Lemma ensureService_overwrite_trace c cs st st' :
  ensureService c cs true st = Return None st' →
  trace st'
  = (trace st ++ serviceDeletion c cs (world st)
       ++ [CreateService (decorator_Service cs)])%list.
Proof.
  unfold ensureService, serviceDeletion.
  rewrite (bind_Return _ _ _ _ _ (currentService_run c cs st)).
  destruct (cachedService c cs (world st)) as [service|].
  - cbn [negb]. intros Hrun. step_in Hrun err st1 E.
    rewrite call_run in E. injection E as <- <-.
    destruct (client_DeleteService _ _ _ _).1; [discriminate|].
    apply createService_trace in Hrun. rewrite Hrun. simpl.
    by rewrite <- app_assoc.
  - apply createService_trace.
Qed.

(** C2.  When the status record is absent and EnsureRegistryServer succeeds,
    it has deleted every pod the cache shows for the selector, then created
    the desired pod, then deleted the service if the cache shows it, then
    created the desired service: both creations are issued whether or not
    instances existed. *)
Theorem EnsureRegistryServer_first_reconcile c cs st cs' st' :
  Status_RegistryServiceStatus cs = None →
  EnsureRegistryServer c cs st = Return (None, cs') st' →
  ∃ st_pod,
    ensurePod c cs true st = Return None st_pod
    ∧ trace st'
      = (trace st
           ++ deletions (cs_Namespace cs) (cachedPods c cs (world st))
           ++ [Pods_Create (cs_Namespace cs) (decorator_Pod cs)]
           ++ serviceDeletion c cs (world st_pod)
           ++ [CreateService (decorator_Service cs)])%list.
Proof.
  intros Hstatus Hrun. unfold EnsureRegistryServer in Hrun.
  rewrite Hstatus in Hrun. rewrite (bind_Return _ _ _ true st) in Hrun by done.
  step_in Hrun err st1 Epod.
  destruct err as [e|]; [by injection Hrun|]. cbn [Wrapf] in Hrun.
  step_in Hrun err st2 Esvc.
  destruct err as [e|]; [by injection Hrun|]. cbn [Wrapf] in Hrun.
  step_in Hrun t st3 Enow. rewrite lift_run in Enow. injection Enow as <- <-.
  simpl in Hrun. injection Hrun as <- <-. simpl.
  exists st1. split; [done|].
  apply ensurePod_overwrite_trace in Epod.
  apply ensureService_overwrite_trace in Esvc.
  rewrite Esvc, Epod. by rewrite <- !app_assoc.
Qed.

(** *** The freshness probe *)

Lemma bind_assoc_run {A B C} (m : M W A) (f : A → M W B) (g : B → M W C) st :
  ((m ≫= f) ≫= g) st = (m ≫= fun a => f a ≫= g) st.
Proof. rewrite !bind_run. by destruct (m st). Qed.

Lemma updateRegistryPodByDigest_disabled c cs st :
  Spec_Poll_Interval cs = 0%Z →
  updateRegistryPodByDigest c cs st = Return false st.
Proof.
  intros H0. unfold updateRegistryPodByDigest.
  by rewrite bool_decide_eq_true_2.
Qed.

Lemma updateRegistryPodByDigest_polling c cs st :
  Spec_Poll_Interval cs ≠ 0%Z →
  updateRegistryPodByDigest c cs st
  = (receiveDigest c cs ≫= compareDigest cs) st.
Proof.
  intros Hne. unfold updateRegistryPodByDigest, receiveDigest, rateGate.
  rewrite bool_decide_eq_false_2 by done.
  rewrite !bind_assoc_run. apply bind_ext; [done|]. intros t st1.
  reflexivity.
Qed.


Lemma compareDigest_received cs digest st :
  compareDigest cs (Some digest) st = Panic st.
Proof. reflexivity. Qed.

Lemma compareDigest_nothing cs st : compareDigest cs None st = Return false st.
Proof. reflexivity. Qed.

Lemma updateRegistryPodByDigest_nothing_received c cs st st1 :
  Spec_Poll_Interval cs ≠ 0%Z →
  receiveDigest c cs st = Return None st1 →
  updateRegistryPodByDigest c cs st = Return false st1.
Proof.
  intros Hne Hrecv. rewrite updateRegistryPodByDigest_polling by done.
  by rewrite (bind_Return _ _ _ _ _ Hrecv).
Qed.

(** Whatever the clock, the scheduler and the cluster do,
    [updateRegistryPodByDigest] does not answer true. *)
Lemma updateRegistryPodByDigest_not_true c cs st (b : bool) st' :
  updateRegistryPodByDigest c cs st = Return b st' → b = false.
Proof.
  destruct (decide (Spec_Poll_Interval cs = 0%Z)) as [H0|Hne].
  - rewrite updateRegistryPodByDigest_disabled by done. by intros [= <- _].
  - rewrite updateRegistryPodByDigest_polling by done. intros Hrun.
    step_in Hrun ch st1 E. destruct ch as [digest|].
    + by rewrite compareDigest_received in Hrun.
    + rewrite compareDigest_nothing in Hrun. by injection Hrun as <-.
Qed.

Lemma pollImageID_trace pod attempts image st :
  trace (outcome_state (pollImageID pod attempts image st)) = trace st.
Proof.
  revert image st. induction attempts as [|n IH]; intros image st; simpl; [done|].
  rewrite bind_run. destruct (pod_ContainerStatuses pod) as [|status l]; [done|].
  simpl. case_bool_decide; [|done].
  rewrite bind_run, lift_run. simpl. by rewrite IH.
Qed.

(** The probe issues one call: the creation of the probe pod. *)
Lemma getPodDigest_trace c cs st :
  trace (outcome_state (getPodDigest c cs st))
  = (trace st ++ [Pods_Create (cs_Namespace cs) (probePod cs)])%list.
Proof.
  unfold getPodDigest. rewrite bind_run, call_run.
  destruct (client_Pods_Create _ _ _ _).1 as [pod|e]; [|done].
  rewrite bind_run.
  pose proof (pollImageID_trace pod 10 ""
                (mkState (client_Pods_Create (OpClient c) (cs_Namespace cs)
                            (probePod cs) (world st)).2
                   (trace st ++ [Pods_Create (cs_Namespace cs) (probePod cs)])))
    as Hpoll.
  destruct (pollImageID pod 10 "" _) as [image st1|st1]; simpl in Hpoll; [|done].
  case_bool_decide; [done|].
  rewrite bind_run. destruct (pod_Containers pod); [done|]. simpl.
  rewrite bind_run. by destruct (pod_ContainerStatuses pod).
Qed.

Lemma rateGate_trace cs st :
  ∃ (gate : bool) st1, rateGate cs st = Return gate st1 ∧ trace st1 = trace st.
Proof.
  unfold rateGate. rewrite bind_run, lift_run. case_bool_decide.
  - rewrite bind_run, lift_run. eauto.
  - eauto.
Qed.

(** A step of the probe makes a call only at the start, the create call,
    and does not come back to the start. *)
Lemma stepProbe_start c cs st :
  ∃ (p : Probe) st',
    stepProbe c cs probe_start st = Return p st'
    ∧ p ≠ probe_start
    ∧ trace st'
      = (trace st ++ [Pods_Create (cs_Namespace cs) (probePod cs)])%list.
Proof.
  simpl. rewrite bind_run, call_run.
  destruct (client_Pods_Create _ _ _ _).1; eexists _, _; by split_and!.
Qed.

Lemma stepProbe_started c cs (p : Probe) st :
  p ≠ probe_start →
  trace (outcome_state (stepProbe c cs p st)) = trace st
  ∧ ∀ (p' : Probe) st',
      stepProbe c cs p st = Return p' st' → p' ≠ probe_start.
Proof.
  intros Hp. destruct p as [|pod attempts|pod image|image|sent]; [done|..]; simpl.
  - rewrite bind_run. destruct (pod_ContainerStatuses pod); [done|]. simpl.
    case_bool_decide; [|by split; [|intros ? ? [= <- _]]].
    rewrite bind_run, lift_run.
    destruct attempts as [|[|a]]; by split; [|intros ? ? [= <- _]].
  - rewrite bind_run. destruct (pod_Containers pod); [done|]. simpl.
    rewrite bind_run. destruct (pod_ContainerStatuses pod); [done|].
    by split; [|intros ? ? [= <- _]].
  - by split; [|intros ? ? [= <- _]].
  - by split; [|intros ? ? [= <- _]].
Qed.

Lemma runProbe_started_trace c cs steps (p : Probe) st :
  p ≠ probe_start →
  trace (outcome_state (runProbe c cs steps p st)) = trace st.
Proof.
  revert p st. induction steps as [|n IH]; intros p st Hp; simpl; [done|].
  rewrite bind_run. destruct (stepProbe_started c cs p st Hp) as [Htr Hnext].
  destruct (stepProbe c cs p st) as [p' st'|st']; simpl in Htr; [|done].
  rewrite IH by eauto. done.
Qed.

(** The steps of a probe issue one call, the creation of the probe pod, as
    soon as there is a first step. *)
Lemma runProbe_trace c cs steps st :
  trace (outcome_state (runProbe c cs steps probe_start st))
  = (trace st ++ match steps with
                 | O => []
                 | S _ => [Pods_Create (cs_Namespace cs) (probePod cs)]
                 end)%list.
Proof.
  destruct steps as [|n]; [by rewrite app_nil_r|]. cbn [runProbe].
  rewrite bind_run. destruct (stepProbe_start c cs st) as (p & st' & -> & Hp & Htr).
  by rewrite runProbe_started_trace.
Qed.

Lemma go_getPodDigest_trace c cs st :
  ∃ l, probeEvents cs l
       ∧ trace (outcome_state (go_getPodDigest c cs st)) = (trace st ++ l)%list.
Proof.
  unfold go_getPodDigest, emit. rewrite bind_run. cbn [world trace].
  rewrite bind_run, lift_run. cbn [world trace]. rewrite bind_run.
  pose proof (runProbe_trace c cs (go_steps_first (world st)).1
                (mkState (go_steps_first (world st)).2
                   (trace st ++ [Go_getPodDigest cs]))) as Htr.
  cbn [trace] in Htr. rewrite <- app_assoc in Htr.
  destruct (runProbe _ _ _ _ _) as [p st'|st']; cbn [outcome_state] in *;
    rewrite ?ret_run; cbn [outcome_state]; rewrite Htr;
    destruct (go_steps_first (world st)).1; eexists; (split; [|done]);
    [by left|by right|by left|by right].
Qed.

Lemma receiveDigest_trace c cs st :
  trace (outcome_state (receiveDigest c cs st)) = trace st
  ∨ ∃ l, probeEvents cs l
         ∧ trace (outcome_state (receiveDigest c cs st)) = (trace st ++ l)%list.
Proof.
  unfold receiveDigest. rewrite bind_run.
  destruct (rateGate_trace cs st) as (gate & st1 & -> & Htr).
  destruct gate; [|by left]. right.
  rewrite bind_run, lift_run.
  destruct (go_getPodDigest_trace c cs
              (mkState (time_Now (world st1)).2 (trace st1)))
    as (l & Hl & Hgo).
  exists l. split; [done|]. rewrite Hgo. cbn [trace]. by rewrite Htr.
Qed.

Lemma updateRegistryPodByDigest_trace c cs st :
  trace (outcome_state (updateRegistryPodByDigest c cs st)) = trace st
  ∨ ∃ l, probeEvents cs l
         ∧ trace (outcome_state (updateRegistryPodByDigest c cs st))
           = (trace st ++ l)%list.
Proof.
  destruct (decide (Spec_Poll_Interval cs = 0%Z)) as [H0|Hne].
  - left. by rewrite updateRegistryPodByDigest_disabled.
  - rewrite updateRegistryPodByDigest_polling by done.
    pose proof (receiveDigest_trace c cs st) as Hrecv. rewrite bind_run.
    destruct (receiveDigest c cs st) as [[digest|] st1|st1]; done.
Qed.

(** *** The rate gate *)

Lemma not_startsProbe_same cs (l : list Event) : ¬ startsProbe cs l l.
Proof.
  intros (l' & Heq). apply (f_equal length) in Heq.
  rewrite length_app in Heq. simpl in Heq. lia.
Qed.

Lemma rateGate_run cs st :
  ∃ w, rateGate cs st
       = Return (bool_decide (zeroTime + Spec_Poll_Interval cs
                                < firstReading (world st))%Z
                 && bool_decide (cs_CreationTimestamp cs + Spec_Poll_Interval cs
                                   < secondReading (world st))%Z)
                (mkState w (trace st)).
Proof.
  unfold rateGate, firstReading, secondReading.
  rewrite bind_run, lift_run. cbn [world trace]. case_bool_decide.
  - rewrite bind_run, lift_run. cbn [world trace]. eauto.
  - eauto.
Qed.

(** The probe is started exactly when the interval is not zero and both
    comparisons of the gate succeed. *)
Lemma startsProbe_iff c cs st :
  startsProbe cs (trace st)
    (trace (outcome_state (updateRegistryPodByDigest c cs st)))
  ↔ Spec_Poll_Interval cs ≠ 0%Z
    ∧ (zeroTime + Spec_Poll_Interval cs < firstReading (world st))%Z
    ∧ (cs_CreationTimestamp cs + Spec_Poll_Interval cs
         < secondReading (world st))%Z.
Proof.
  destruct (decide (Spec_Poll_Interval cs = 0%Z)) as [H0|Hne].
  { rewrite updateRegistryPodByDigest_disabled by done. simpl. split.
    - intros H. by apply not_startsProbe_same in H.
    - by intros [? _]. }
  rewrite updateRegistryPodByDigest_polling by done.
  unfold receiveDigest. rewrite bind_assoc_run, bind_run.
  destruct (rateGate_run cs st) as (w & ->).
  do 2 case_bool_decide; cbn [andb].
  - split; [done|]. intros _. rewrite bind_assoc_run, bind_run, lift_run.
    cbn [world trace]. rewrite bind_run.
    destruct (go_getPodDigest_trace c cs (mkState (time_Now w).2 (trace st)))
      as (l & Hl & Hgo).
    cbn [trace] in Hgo.
    assert (startsProbe cs (trace st) (trace st ++ l)) as Hstart.
    { destruct Hl as [->| ->]; by eexists. }
    destruct (go_getPodDigest c cs _) as [[digest|] st2|st2];
      cbn [outcome_state] in *;
      rewrite ?compareDigest_received, ?compareDigest_nothing;
      cbn [outcome_state]; by rewrite Hgo.
  - split; [|by intros (? & ? & ?)]. intros Hs.
    by apply not_startsProbe_same in Hs.
  - split; [|by intros (? & ? & ?)]. intros Hs.
    by apply not_startsProbe_same in Hs.
  - split; [|by intros (? & ? & ?)]. intros Hs.
    by apply not_startsProbe_same in Hs.
Qed.

(** C4, as amended.  updateRegistryPodByDigest starts a probe only if the
    poll interval is not zero and the wall clock, as the gate reads it, is
    later than the creation timestamp of the CatalogSource by more than the
    poll interval; no probe is started while that gate is closed. *)
Theorem probe_started_only_after_interval c cs st :
  startsProbe cs (trace st)
    (trace (outcome_state (updateRegistryPodByDigest c cs st))) →
  Spec_Poll_Interval cs ≠ 0%Z
  ∧ (Spec_Poll_Interval cs
       < secondReading (world st) - cs_CreationTimestamp cs)%Z.
Proof.
  intros Hstart. apply startsProbe_iff in Hstart as (Hne & _ & Hlt).
  split; [done|lia].
Qed.

(** *** The probe at the select statement *)








(** *** The converged state *)

Lemma ensurePod_keep c cs st :
  cachedPods c cs (world st) ≠ [] →
  ensurePod c cs false st = Return None st.
Proof.
  intros Hne. unfold ensurePod.
  rewrite (bind_Return _ _ _ _ _ (currentPods_run c cs st)).
  by destruct (cachedPods c cs (world st)).
Qed.

Lemma ensureService_keep c cs st :
  is_Some (cachedService c cs (world st)) →
  ensureService c cs false st = Return None st.
Proof.
  intros [service Hsvc]. unfold ensureService.
  rewrite (bind_Return _ _ _ _ _ (currentService_run c cs st)).
  by rewrite Hsvc.
Qed.





(** *** The probe pod *)

Lemma Matches_singleton (k v : string) (ls : gmap string string) :
  Matches {[ k := v ]} ls = true ↔ ls !! k = Some v.
Proof.
  unfold Matches. rewrite bool_decide_eq_true, map_Forall_singleton. done.
Qed.

(** C9.  For a CatalogSource with a non-empty name, the one pod getPodDigest
    asks the cluster to create runs the image of the desired pod, and
    carries the canonical label key with an empty value instead of the
    name: neither the selector of the reconciler's lookups nor the selector
    of the service matches its labels. *)
Theorem probePod_not_selected c cs st :
  cs_Name cs ≠ "" →
  trace (outcome_state (getPodDigest c cs st))
    = (trace st ++ [Pods_Create (cs_Namespace cs) (probePod cs)])%list
  ∧ container_Image <$> pod_Containers (probePod cs)
    = container_Image <$> pod_Containers (decorator_Pod cs)
  ∧ firstImage (probePod cs) = Some (Spec_Image cs)
  ∧ pod_Labels (probePod cs) !! CatalogSourceLabelKey = Some ""
  ∧ pod_Labels (probePod cs) !! CatalogSourceLabelKey ≠ Some (cs_Name cs)
  ∧ Matches (decorator_Selector cs) (pod_Labels (probePod cs)) = false
  ∧ Matches (svc_Selector (decorator_Service cs)) (pod_Labels (probePod cs))
    = false.
Proof.
  intros Hname.
  assert (pod_Labels (probePod cs) !! CatalogSourceLabelKey = Some "") as Hlbl.
  { unfold probePod, setLabel. cbn [pod_Labels]. apply lookup_insert_eq. }
  assert (Matches {[ CatalogSourceLabelKey := cs_Name cs ]}
                  (pod_Labels (probePod cs)) = false) as Hsel.
  { apply not_true_iff_false. rewrite Matches_singleton, Hlbl. congruence. }
  split_and!; try done.
  - apply getPodDigest_trace.
  - rewrite Hlbl. congruence.
Qed.

(** With an empty name the blanked label is the canonical label itself. *)
Lemma probePod_selected_when_unnamed cs :
  cs_Name cs = "" →
  Matches (decorator_Selector cs) (pod_Labels (probePod cs)) = true.
Proof.
  intros Hname. unfold decorator_Selector, SelectorFromValidatedSet.
  rewrite Matches_singleton, Hname. unfold probePod, setLabel.
  cbn [pod_Labels]. apply lookup_insert_eq.
Qed.

Lemma rangeCorrectImage_Return image (pods found l : list Pod) st st' :
  rangeCorrectImage image pods found st = Return l st' →
  Forall hasContainer pods.
Proof.
  revert found. induction pods as [|p pods IH]; intros found; simpl.
  - constructor.
  - rewrite bind_run. unfold hasContainer at 1.
    destruct (pod_Containers p) as [|c0 cont] eqn:Hc; [done|]. simpl.
    intros Hrun. constructor; [by rewrite Hc|].
    revert Hrun. case_bool_decide; apply IH.
Qed.

Lemma currentPodsWithCorrectImage_Return c cs st l st' :
  currentPodsWithCorrectImage c cs st = Return l st' →
  Forall hasContainer (cachedPods c cs (world st))
  ∧ l = filter (fun p => firstImage p = Some (Spec_Image cs))
               (cachedPods c cs (world st))
  ∧ st' = st.
Proof.
  intros Hrun.
  assert (Forall hasContainer (cachedPods c cs (world st))) as Hall.
  { rewrite currentPodsWithCorrectImage_cached in Hrun.
    by apply rangeCorrectImage_Return in Hrun. }
  rewrite currentPodsWithCorrectImage_run in Hrun by done.
  by injection Hrun as <- <-.
Qed.

(** *** Index expressions *)

Lemma rangeDeletePods_returns c namespace pods st :
  returns (rangeDeletePods c namespace pods st) = true.
Proof.
  revert st. induction pods as [|p pods IH]; intros st; simpl; [done|].
  rewrite bind_run, call_run. by destruct (client_Pods_Delete _ _ _ _).1.
Qed.

Lemma createPod_returns c cs st : returns (createPod c cs st) = true.
Proof.
  unfold createPod. rewrite bind_run, call_run.
  by destruct (client_Pods_Create _ _ _ _).1.
Qed.

Lemma ensurePod_returns c cs overwrite st :
  returns (ensurePod c cs overwrite st) = true.
Proof.
  unfold ensurePod. rewrite (bind_Return _ _ _ _ _ (currentPods_run c cs st)).
  destruct (cachedPods c cs (world st)) as [|p pods];
    [apply createPod_returns|].
  destruct overwrite; cbn [negb]; [|done]. rewrite bind_run.
  pose proof (rangeDeletePods_returns c (cs_Namespace cs) (p :: pods) st) as Hdel.
  destruct (rangeDeletePods _ _ _ _) as [[e|] st1|st1]; try done.
  apply createPod_returns.
Qed.

Lemma createService_returns c service st :
  returns (createService c service st) = true.
Proof.
  unfold createService. rewrite bind_run, call_run.
  by destruct (client_CreateService _ _ _).1.
Qed.

Lemma ensureService_returns c cs overwrite st :
  returns (ensureService c cs overwrite st) = true.
Proof.
  unfold ensureService.
  rewrite (bind_Return _ _ _ _ _ (currentService_run c cs st)).
  destruct (cachedService c cs (world st)); [|apply createService_returns].
  destruct overwrite; cbn [negb]; [|done]. rewrite bind_run, call_run.
  destruct (client_DeleteService _ _ _ _).1; [done|].
  apply createService_returns.
Qed.

(** Once the freshness check is over, nothing indexes a pod any more. *)
Lemma EnsureRegistryServer_tail_returns c cs (overwrite overwritePod : bool) st :
  returns
    ((err ← ensurePod c cs overwritePod;
      match Wrapf err ("error ensuring pod: " +:+ pod_Name (decorator_Pod cs)) with
      | Some e => mret (Some e, cs)
      | None =>
          err ← ensureService c cs overwrite;
          match Wrapf err ("error ensuring service: "
                             +:+ svc_Name (decorator_Service cs)) with
          | Some e => mret (Some e, cs)
          | None =>
              if overwritePod
              then
                now ← lift (now c);
                port ← index0 (svc_Ports (decorator_Service cs));
                mret (None,
                      setRegistryServiceStatus cs
                        {| CreatedAt := now;
                           Protocol := "grpc";
                           ServiceName := svc_Name (decorator_Service cs);
                           ServiceNamespace := cs_Namespace cs;
                           Port := pretty (port_Port port) |})
              else mret (None, cs)
          end
      end) st) = true.
Proof.
  rewrite bind_run. pose proof (ensurePod_returns c cs overwritePod st) as Hpod.
  destruct (ensurePod _ _ _ _) as [[e|] st1|st1]; try done. cbn [Wrapf].
  rewrite bind_run. pose proof (ensureService_returns c cs overwrite st1) as Hsvc.
  destruct (ensureService _ _ _ _) as [[e|] st2|st2]; try done. cbn [Wrapf].
  destruct overwritePod; [|done]. by rewrite bind_run, lift_run.
Qed.

(** The steps of the probe, from each of its points. *)
Lemma runProbe_end c cs steps sent st :
  runProbe c cs steps (probe_end sent) st = Return (probe_end sent) st.
Proof.
  induction steps as [|n IH]; [done|].
  cbn [runProbe]. rewrite bind_run. cbn [stepProbe]. by rewrite ret_run.
Qed.

Lemma runProbe_send c cs steps image st :
  runProbe c cs steps (probe_send image) st
  = Return (match steps with
            | O => probe_send image
            | S _ => probe_end (Some image)
            end) st.
Proof.
  destruct steps as [|n]; [done|].
  cbn [runProbe]. rewrite bind_run. cbn [stepProbe]. rewrite ret_run.
  apply runProbe_end.
Qed.

Lemma runProbe_log c cs steps pod image st :
  runProbe c cs steps (probe_log pod image) st
  = match steps with
    | O => Return (probe_log pod image) st
    | S n =>
        match pod_Containers pod, pod_ContainerStatuses pod with
        | _ :: _, _ :: _ =>
            Return (match n with
                    | O => probe_send image
                    | S _ => probe_end (Some image)
                    end) st
        | _, _ => Panic st
        end
    end.
Proof.
  destruct steps as [|n]; [done|].
  cbn [runProbe]. rewrite bind_run. cbn [stepProbe]. rewrite bind_run.
  destruct (pod_Containers pod); [done|]. simpl. rewrite bind_run.
  destruct (pod_ContainerStatuses pod); [done|]. simpl.
  apply runProbe_send.
Qed.

Lemma runProbe_attempt_no_status c cs steps pod attempts st :
  pod_ContainerStatuses pod = [] →
  runProbe c cs steps (probe_attempt pod attempts) st
  = match steps with
    | O => Return (probe_attempt pod attempts) st
    | S _ => Panic st
    end.
Proof.
  intros Hst. destruct steps as [|n]; [done|].
  cbn [runProbe]. rewrite bind_run. cbn [stepProbe]. rewrite bind_run.
  by rewrite Hst.
Qed.


Lemma runProbe_attempt_ready c cs steps pod status statuses attempts st :
  pod_ContainerStatuses pod = status :: statuses →
  ImageID status ≠ "" →
  runProbe c cs steps (probe_attempt pod attempts) st
  = match steps with
    | O => Return (probe_attempt pod attempts) st
    | S n => runProbe c cs n (probe_log pod (ImageID status)) st
    end.
Proof.
  intros Hst Hid. destruct steps as [|n]; [done|].
  cbn [runProbe]. rewrite bind_run. cbn [stepProbe]. rewrite bind_run, Hst.
  simpl. by rewrite bool_decide_eq_false_2 by done.
Qed.




(** The precondition is needed: a cached pod without containers makes both
    operations panic once the status record is present. *)
Lemma panics_on_pod_without_container c cs st status :
  Status_RegistryServiceStatus cs = Some status →
  ¬ Forall hasContainer (cachedPods c cs (world st)) →
  EnsureRegistryServer c cs st = Panic st
  ∧ CheckRegistryServer c cs st = Panic st.
Proof.
  intros Hstatus Hnot. split.
  - unfold EnsureRegistryServer. rewrite Hstatus.
    apply bind_Panic, bind_Panic. by apply currentPodsWithCorrectImage_panic.
  - unfold CheckRegistryServer.
    apply bind_Panic. by apply currentPodsWithCorrectImage_panic.
Qed.

(** And so is the other half: a digest on the channel makes
    updateRegistryPodByDigest panic. *)
Lemma panics_on_received_digest c cs st digest st1 :
  Spec_Poll_Interval cs ≠ 0%Z →
  receiveDigest c cs st = Return (Some digest) st1 →
  updateRegistryPodByDigest c cs st = Panic st1.
Proof.
  intros Hne Hrecv. rewrite updateRegistryPodByDigest_polling by done.
  by rewrite (bind_Return _ _ _ _ _ Hrecv).
Qed.

(** *** The calls a computation makes *)

Lemma appends_ret {A} (P : Event → Prop) (a : A) : appends P (mret a : M W A).
Proof. intros st. exists []. by rewrite app_nil_r. Qed.

Lemma appends_panic {A} (P : Event → Prop) : appends P (panic : M W A).
Proof. intros st. exists []. by rewrite app_nil_r. Qed.

Lemma appends_read {A} (P : Event → Prop) (f : W → A) : appends P (read f).
Proof. intros st. exists []. by rewrite app_nil_r. Qed.

Lemma appends_lift {A} (P : Event → Prop) (op : W → A * W) :
  appends P (lift op).
Proof. intros st. rewrite lift_run. exists []. by rewrite app_nil_r. Qed.

Lemma appends_index0 {A} (P : Event → Prop) (l : list A) :
  appends P (index0 l : M W A).
Proof. destruct l; [apply appends_panic|apply appends_ret]. Qed.

Lemma appends_emit (P : Event → Prop) (e : Event) :
  P e → appends P (emit e : M W unit).
Proof. intros He st. exists [e]. split; [done|by constructor]. Qed.

Lemma appends_call {A} (P : Event → Prop) (e : Event) (op : W → A * W) :
  P e → appends P (call e op).
Proof.
  intros He st. rewrite call_run. exists [e]. split; [done|by constructor].
Qed.

Lemma appends_bind {A B} (P : Event → Prop) (m : M W A) (f : A → M W B) :
  appends P m → (∀ a, appends P (f a)) → appends P (m ≫= f).
Proof.
  intros Hm Hf st. rewrite bind_run. destruct (Hm st) as (l & Hl & HP).
  destruct (m st) as [a st1|st1]; simpl in Hl.
  - destruct (Hf a st1) as (l' & Hl' & HP'). exists (l ++ l')%list.
    split; [by rewrite Hl', Hl, app_assoc|by apply Forall_app].
  - by exists l.
Qed.

Lemma rangeCorrectImage_appends (P : Event → Prop) image (pods found : list Pod) :
  appends P (rangeCorrectImage image pods found : M W (list Pod)).
Proof.
  revert found. induction pods as [|p pods IH]; intros found; simpl.
  - apply appends_ret.
  - apply appends_bind; [apply appends_index0|].
    intros c0. by case_bool_decide.
Qed.

Lemma currentPodsWithCorrectImage_appends (P : Event → Prop) c cs :
  appends P (currentPodsWithCorrectImage c cs).
Proof.
  unfold currentPodsWithCorrectImage. apply appends_bind; [apply appends_read|].
  intros [pods|e]; [apply rangeCorrectImage_appends|apply appends_ret].
Qed.

Lemma currentService_appends (P : Event → Prop) c cs :
  appends P (currentService c cs).
Proof.
  unfold currentService. apply appends_bind; [apply appends_read|].
  intros [service|e]; apply appends_ret.
Qed.

Lemma currentPods_appends (P : Event → Prop) c cs : appends P (currentPods c cs).
Proof.
  unfold currentPods. apply appends_bind; [apply appends_read|].
  intros [pods|e]; apply appends_ret.
Qed.

Lemma rangeDeletePods_appends (P : Event → Prop) c namespace pods :
  (∀ name, P (Pods_Delete namespace name)) →
  appends P (rangeDeletePods c namespace pods).
Proof.
  intros HP. induction pods as [|p pods IH]; simpl; [apply appends_ret|].
  apply appends_bind; [by apply appends_call|].
  intros [e|]; [apply appends_ret|done].
Qed.

Lemma createPod_appends (P : Event → Prop) c cs :
  P (Pods_Create (cs_Namespace cs) (decorator_Pod cs)) →
  appends P (createPod c cs).
Proof.
  intros HP. unfold createPod. apply appends_bind; [by apply appends_call|].
  intros [pod|e]; apply appends_ret.
Qed.

Lemma ensurePod_appends (P : Event → Prop) c cs overwrite :
  (∀ name, P (Pods_Delete (cs_Namespace cs) name)) →
  P (Pods_Create (cs_Namespace cs) (decorator_Pod cs)) →
  appends P (ensurePod c cs overwrite).
Proof.
  intros Hdel Hcreate. unfold ensurePod.
  apply appends_bind; [apply currentPods_appends|].
  intros [|p pods]; [by apply createPod_appends|].
  destruct (negb overwrite); [apply appends_ret|].
  apply appends_bind; [by apply rangeDeletePods_appends|].
  intros [e|]; [apply appends_ret|by apply createPod_appends].
Qed.

Lemma createService_appends (P : Event → Prop) c service :
  P (CreateService service) → appends P (createService c service).
Proof.
  intros HP. unfold createService. apply appends_bind; [by apply appends_call|].
  intros [s|e]; apply appends_ret.
Qed.

Lemma ensureService_appends (P : Event → Prop) c cs overwrite :
  (overwrite = true → P (DeleteService (cs_Namespace cs) (cs_Name cs))) →
  P (CreateService (decorator_Service cs)) →
  appends P (ensureService c cs overwrite).
Proof.
  intros Hdel Hcreate. unfold ensureService.
  apply appends_bind; [apply currentService_appends|].
  intros [service|]; [|by apply createService_appends].
  destruct overwrite; cbn [negb]; [|apply appends_ret].
  apply appends_bind; [apply appends_call; by apply Hdel|].
  intros [e|]; [apply appends_ret|by apply createService_appends].
Qed.

Lemma pollImageID_appends (P : Event → Prop) pod attempts image :
  appends P (pollImageID pod attempts image : M W string).
Proof.
  revert image. induction attempts as [|n IH]; intros image; simpl.
  - apply appends_ret.
  - apply appends_bind; [apply appends_index0|]. intros status.
    case_bool_decide; [|apply appends_ret].
    apply appends_bind; [apply appends_lift|done].
Qed.

Lemma getPodDigest_appends (P : Event → Prop) c cs :
  P (Pods_Create (cs_Namespace cs) (probePod cs)) →
  appends P (getPodDigest c cs).
Proof.
  intros HP. unfold getPodDigest. apply appends_bind; [by apply appends_call|].
  intros [pod|e]; [|apply appends_ret].
  apply appends_bind; [apply pollImageID_appends|]. intros image.
  case_bool_decide; [apply appends_ret|].
  apply appends_bind; [apply appends_index0|]. intros _.
  apply appends_bind; [apply appends_index0|]. intros _. apply appends_ret.
Qed.

Lemma stepProbe_appends (P : Event → Prop) c cs (p : Probe) :
  P (Pods_Create (cs_Namespace cs) (probePod cs)) →
  appends P (stepProbe c cs p).
Proof.
  intros HP. destruct p as [|pod attempts|pod image|image|sent]; simpl.
  - apply appends_bind; [by apply appends_call|].
    intros [pod|e]; apply appends_ret.
  - apply appends_bind; [apply appends_index0|]. intros status.
    case_bool_decide; [|apply appends_ret].
    apply appends_bind; [apply appends_lift|]. intros _.
    destruct attempts as [|[|a]]; apply appends_ret.
  - apply appends_bind; [apply appends_index0|]. intros _.
    apply appends_bind; [apply appends_index0|]. intros _. apply appends_ret.
  - apply appends_ret.
  - apply appends_ret.
Qed.

Lemma runProbe_appends (P : Event → Prop) c cs steps (p : Probe) :
  P (Pods_Create (cs_Namespace cs) (probePod cs)) →
  appends P (runProbe c cs steps p).
Proof.
  intros HP. revert p. induction steps as [|n IH]; intros p; simpl.
  - apply appends_ret.
  - apply appends_bind; [by apply stepProbe_appends|done].
Qed.

Lemma updateRegistryPodByDigest_appends (P : Event → Prop) c cs :
  P (Go_getPodDigest cs) →
  P (Pods_Create (cs_Namespace cs) (probePod cs)) →
  appends P (updateRegistryPodByDigest c cs).
Proof.
  intros Hgo Hcreate. unfold updateRegistryPodByDigest.
  case_bool_decide; [apply appends_ret|].
  apply appends_bind; [apply appends_lift|]. intros t.
  apply appends_bind.
  { case_bool_decide; [|apply appends_ret].
    apply appends_bind; [apply appends_lift|]. intros t'. apply appends_ret. }
  intros gate. apply appends_bind.
  { destruct gate; [|apply appends_ret].
    apply appends_bind; [apply appends_lift|]. intros _.
    unfold go_getPodDigest. apply appends_bind; [by apply appends_emit|].
    intros _. apply appends_bind; [apply appends_lift|]. intros steps.
    apply appends_bind; [by apply runProbe_appends|]. intros p.
    apply appends_ret. }
  intros [digest|]; [|apply appends_ret].
  apply appends_bind; [apply appends_index0|]. intros status.
  case_bool_decide; apply appends_ret.
Qed.

(** X7.  Whatever the cluster, the clock and the scheduler do, and whether
    it returns or panics, EnsureRegistryServer stays in the namespace of
    the catalog source and makes no other calls than these: it starts a
    probe and creates the probe pod, deletes pods, creates the desired pod,
    creates the desired service, and deletes the service of the catalog
    source; the latter never when the status record is present. *)
Theorem EnsureRegistryServer_calls c cs st :
  ∃ l,
    trace (outcome_state (EnsureRegistryServer c cs st)) = (trace st ++ l)%list
    ∧ Forall (ensureEvent cs
                (bool_decide (Status_RegistryServiceStatus cs = None))) l.
Proof.
  revert st.
  change (appends (ensureEvent cs
                     (bool_decide (Status_RegistryServiceStatus cs = None)))
            (EnsureRegistryServer c cs)).
  unfold EnsureRegistryServer.
  destruct (Status_RegistryServiceStatus cs) as [status|];
    [rewrite bool_decide_eq_false_2 by done
    |rewrite bool_decide_eq_true_2 by done].
  - apply appends_bind.
    { apply appends_bind; [apply currentPodsWithCorrectImage_appends|].
      intros found. case_bool_decide; [apply appends_ret|].
      apply updateRegistryPodByDigest_appends; simpl; auto. }
    intros overwritePod.
    apply appends_bind; [apply ensurePod_appends; simpl; auto|].
    intros err. destruct (Wrapf err _); [apply appends_ret|].
    apply appends_bind; [by apply ensureService_appends|].
    intros err'. destruct (Wrapf err' _); [apply appends_ret|].
    destruct overwritePod; [|apply appends_ret].
    apply appends_bind; [apply appends_lift|]. intros t.
    apply appends_bind; [apply appends_index0|]. intros port.
    apply appends_ret.
  - apply appends_bind; [apply appends_ret|]. intros overwritePod.
    apply appends_bind; [apply ensurePod_appends; simpl; auto|].
    intros err. destruct (Wrapf err _); [apply appends_ret|].
    apply appends_bind; [by apply ensureService_appends|].
    intros err'. destruct (Wrapf err' _); [apply appends_ret|].
    destruct overwritePod; [|apply appends_ret].
    apply appends_bind; [apply appends_lift|]. intros t.
    apply appends_bind; [apply appends_index0|]. intros port.
    apply appends_ret.
Qed.

(** X8.  CheckRegistryServer only reads: whether it returns or panics, it
    makes no call and leaves the cluster as it found it. *)
Theorem CheckRegistryServer_read_only c cs st :
  outcome_state (CheckRegistryServer c cs st) = st.
Proof.
  unfold CheckRegistryServer. rewrite bind_run.
  rewrite currentPodsWithCorrectImage_cached.
  assert (∀ pods found,
            outcome_state (rangeCorrectImage (Spec_Image cs) pods found st) = st)
    as Hrange.
  { induction pods as [|p pods IH]; intros found; simpl; [done|].
    rewrite bind_run. destruct (pod_Containers p); [done|]. simpl.
    by case_bool_decide. }
  specialize (Hrange (cachedPods c cs (world st)) []).
  destruct (rangeCorrectImage _ _ _ _) as [found st1|st1]; simpl in Hrange;
    subst st1; [|done].
  case_bool_decide; [done|].
  rewrite (bind_Return _ _ _ _ _ (currentService_run c cs st)).
  by destruct (cachedService c cs (world st)).
Qed.

(** *** Labels and selectors *)

(** X9.  The selector of the lookups and the selector of the service of a
    catalog source match the canonical labels of a catalog source exactly
    when the two have the same name; the namespace plays no part. *)
Theorem Selector_matches_Labels (a b : CatalogSource) :
  (Matches (decorator_Selector a) (decorator_Labels b) = true
   ↔ cs_Name a = cs_Name b)
  ∧ (Matches (svc_Selector (decorator_Service a)) (decorator_Labels b) = true
     ↔ cs_Name a = cs_Name b).
Proof.
  assert (Matches {[ CatalogSourceLabelKey := cs_Name a ]} (decorator_Labels b)
          = true ↔ cs_Name a = cs_Name b) as Hm.
  { rewrite Matches_singleton. unfold decorator_Labels.
    rewrite lookup_singleton_eq. split; congruence. }
  by split.
Qed.

(** X10.  The pod the decorator builds is one the reconciler finds again:
    its labels satisfy the selector of the lookups and the selector of the
    service, and its first container runs the declared image. *)
Theorem desired_pod_is_selected cs :
  Matches (decorator_Selector cs) (pod_Labels (decorator_Pod cs)) = true
  ∧ Matches (svc_Selector (decorator_Service cs)) (pod_Labels (decorator_Pod cs))
    = true
  ∧ firstImage (decorator_Pod cs) = Some (Spec_Image cs).
Proof.
  assert (Matches {[ CatalogSourceLabelKey := cs_Name cs ]}
            (pod_Labels (decorator_Pod cs)) = true) as Hm.
  { rewrite Matches_singleton. cbn [decorator_Pod newPod pod_Labels].
    unfold decorator_Labels. apply lookup_singleton_eq. }
  by split_and!.
Qed.

(** *** Lookups *)

(** X11.  currentPodsWithCorrectImage returns, in the order of the cache,
    the cached pods whose first container runs the declared image, and
    changes nothing, when every cached pod has a container; it panics as
    soon as one has none, whatever the images of the others. *)
Theorem currentPodsWithCorrectImage_result c cs st :
  (Forall hasContainer (cachedPods c cs (world st)) →
   currentPodsWithCorrectImage c cs st
   = Return (filter (fun p => firstImage p = Some (Spec_Image cs))
                    (cachedPods c cs (world st))) st)
  ∧ (¬ Forall hasContainer (cachedPods c cs (world st)) →
     currentPodsWithCorrectImage c cs st = Panic st).
Proof.
  split.
  - apply currentPodsWithCorrectImage_run.
  - apply currentPodsWithCorrectImage_panic.
Qed.

(** *** ensurePod and ensureService, call by call *)

Lemma rangeDeletePods_Return c namespace pods st r st' :
  rangeDeletePods c namespace pods st = Return r st' →
  match r with
  | None =>
      afterDeletions c namespace pods (world st) = Some (world st')
      ∧ trace st' = (trace st ++ deletions namespace pods)%list
  | Some e =>
      ∃ pre p post w cause,
        pods = (pre ++ p :: post)%list
        ∧ afterDeletions c namespace pre (world st) = Some w
        ∧ client_Pods_Delete (OpClient c) namespace (pod_Name p) w
          = (Some cause, world st')
        ∧ trace st' = (trace st ++ deletions namespace (pre ++ [p]))%list
        ∧ e = withMessage cause ("error deleting old pod: " +:+ pod_Name p)
  end.
Proof.
  revert st. induction pods as [|p pods IH]; intros st Hrun; simpl in Hrun.
  - injection Hrun as <- <-. by rewrite app_nil_r.
  - step_in Hrun err st1 E. rewrite call_run in E. injection E as <- <-.
    destruct (client_Pods_Delete (OpClient c) namespace (pod_Name p) (world st))
      as [[cause|] w1] eqn:Hdel; simpl in Hrun.
    + injection Hrun as <- <-. by exists [], p, pods, (world st), cause.
    + apply IH in Hrun. cbn [trace world] in Hrun. destruct r as [e|].
      * destruct Hrun as (pre & p' & post & w & cause & -> & Haft & Hc & Htr & ->).
        exists (p :: pre), p', post, w, cause. split_and!; try done.
        -- simpl. by rewrite Hdel.
        -- rewrite Htr. simpl. by rewrite <- app_assoc.
      * destruct Hrun as [Haft Htr]. split.
        -- simpl. by rewrite Hdel.
        -- rewrite Htr. simpl. by rewrite <- app_assoc.
Qed.

Lemma createPod_Return c cs st r st' :
  createPod c cs st = Return r st' →
  world st'
  = (client_Pods_Create (OpClient c) (cs_Namespace cs) (decorator_Pod cs)
       (world st)).2
  ∧ trace st'
    = (trace st ++ [Pods_Create (cs_Namespace cs) (decorator_Pod cs)])%list
  ∧ r = match (client_Pods_Create (OpClient c) (cs_Namespace cs)
                 (decorator_Pod cs) (world st)).1 with
        | Ok _ => None
        | Err cause =>
            Some (withMessage cause
                    ("error creating new pod: "
                       +:+ pod_GenerateName (decorator_Pod cs)))
        end.
Proof.
  unfold createPod. intros Hrun. step_in Hrun res st1 E.
  rewrite call_run in E. injection E as <- <-.
  by destruct (client_Pods_Create _ _ _ _).1 as [pod|cause];
    injection Hrun as <- <-.
Qed.

(** X12.  What ensurePod has done when it returns.  With pods in the cache
    and no overwrite it has done nothing.  Otherwise it has deleted the
    cached pods in the order of the cache; at the first deletion the client
    answers with an error it has stopped, leaving the remaining pods alone
    and creating nothing, and returns that error of the client wrapped with
    the name of the pod; when the client has carried out all deletions it
    has issued one creation, of the desired pod, and returns nil if the
    client has created the pod, and otherwise the error of the client
    wrapped with the generated name of the pod. *)
Theorem ensurePod_calls c cs overwrite st r st' :
  ensurePod c cs overwrite st = Return r st' →
  (cachedPods c cs (world st) ≠ [] ∧ overwrite = false ∧ r = None ∧ st' = st)
  ∨ (overwrite = true
     ∧ ∃ pre p post w cause,
         cachedPods c cs (world st) = (pre ++ p :: post)%list
         ∧ afterDeletions c (cs_Namespace cs) pre (world st) = Some w
         ∧ client_Pods_Delete (OpClient c) (cs_Namespace cs) (pod_Name p) w
           = (Some cause, world st')
         ∧ trace st'
           = (trace st ++ deletions (cs_Namespace cs) (pre ++ [p]))%list
         ∧ r = Some (withMessage cause
                       ("error deleting old pod: " +:+ pod_Name p)))
  ∨ ((cachedPods c cs (world st) = [] ∨ overwrite = true)
     ∧ ∃ w,
         afterDeletions c (cs_Namespace cs) (cachedPods c cs (world st))
           (world st) = Some w
         ∧ world st'
           = (client_Pods_Create (OpClient c) (cs_Namespace cs)
                (decorator_Pod cs) w).2
         ∧ trace st'
           = (trace st
                ++ deletions (cs_Namespace cs) (cachedPods c cs (world st))
                ++ [Pods_Create (cs_Namespace cs) (decorator_Pod cs)])%list
         ∧ r = match (client_Pods_Create (OpClient c) (cs_Namespace cs)
                        (decorator_Pod cs) w).1 with
               | Ok _ => None
               | Err cause =>
                   Some (withMessage cause
                           ("error creating new pod: "
                              +:+ pod_GenerateName (decorator_Pod cs)))
               end).
Proof.
  unfold ensurePod. rewrite (bind_Return _ _ _ _ _ (currentPods_run c cs st)).
  destruct (cachedPods c cs (world st)) as [|p pods] eqn:Hpods.
  - intros Hrun. apply createPod_Return in Hrun as (Hw & Htr & Hr).
    right. right. split; [by left|]. by exists (world st).
  - destruct overwrite; cbn [negb].
    + intros Hrun. step_in Hrun err st1 E.
      apply rangeDeletePods_Return in E. destruct err as [e|].
      * injection Hrun as <- <-. right. left. split; [done|].
        destruct E as (pre & p' & post & w & cause & Heq & Haft & Hc & Htr & ->).
        by exists pre, p', post, w, cause.
      * destruct E as [Haft Hdel].
        apply createPod_Return in Hrun as (Hw & Htr & Hr). right. right.
        split; [by right|]. exists (world st1). split_and!; try done.
        by rewrite Htr, Hdel, <- app_assoc.
    + intros [= <- <-]. by left.
Qed.

Lemma createService_Return c service st r st' :
  createService c service st = Return r st' →
  trace st' = (trace st ++ [CreateService service])%list
  ∧ r = errorOf (client_CreateService (OpClient c) service (world st)).1.
Proof.
  unfold createService. intros Hrun. step_in Hrun res st1 E.
  rewrite call_run in E. injection E as <- <-.
  by destruct (client_CreateService _ _ _).1; injection Hrun as <- <-.
Qed.

(** X13.  What ensureService has done when it returns.  With the service
    in the cache and no overwrite it has done nothing.  With the service in
    the cache and overwrite it has deleted the service; if that failed, it
    has created nothing and returns the error of the client as it is.
    Otherwise it has issued one creation, of the desired service, and
    returns nil or the error of that creation as it is. *)
Theorem ensureService_calls c cs overwrite st r st' :
  ensureService c cs overwrite st = Return r st' →
  (is_Some (cachedService c cs (world st)) ∧ overwrite = false
   ∧ r = None ∧ st' = st)
  ∨ (is_Some (cachedService c cs (world st)) ∧ overwrite = true
     ∧ is_Some r
     ∧ r = (client_DeleteService (OpClient c) (cs_Namespace cs) (cs_Name cs)
              (world st)).1
     ∧ trace st'
       = (trace st ++ [DeleteService (cs_Namespace cs) (cs_Name cs)])%list)
  ∨ ((cachedService c cs (world st) = None ∨ overwrite = true)
     ∧ trace st'
       = (trace st ++ serviceDeletion c cs (world st)
            ++ [CreateService (decorator_Service cs)])%list
     ∧ ∃ w, r = errorOf (client_CreateService (OpClient c)
                           (decorator_Service cs) w).1).
Proof.
  unfold ensureService, serviceDeletion.
  rewrite (bind_Return _ _ _ _ _ (currentService_run c cs st)).
  destruct (cachedService c cs (world st)) as [service|].
  - destruct overwrite; cbn [negb].
    + intros Hrun. step_in Hrun err st1 E. rewrite call_run in E.
      injection E as <- <-. simpl in *.
      destruct (client_DeleteService _ _ _ _).1 as [cause|] eqn:Hdel.
      * injection Hrun as <- <-. right. left. by split_and!.
      * apply createService_Return in Hrun as [Htr Hr]. right. right.
        split_and!; [by right| |by eexists].
        rewrite Htr. simpl. by rewrite <- app_assoc.
    + intros [= <- <-]. left. by split_and!.
  - intros Hrun. apply createService_Return in Hrun as [Htr Hr].
    right. right. split_and!; [by left|done|by eexists].
Qed.

(** *** EnsureRegistryServer, path by path *)

(** X14.  When EnsureRegistryServer returns an error, the descriptor is
    returned as it was, the status record is not written, and the error is
    the one ensurePod has returned, wrapped with the name of the desired
    pod, or, ensurePod having returned nil, the one ensureService has
    returned, wrapped with the name of the catalog source; the operation
    ends in the state in which that call ended. *)
Theorem EnsureRegistryServer_error c cs st e cs' st' :
  EnsureRegistryServer c cs st = Return (Some e, cs') st' →
  cs' = cs
  ∧ ∃ (overwritePod : bool) st1,
      overwritesPod c cs st = Return overwritePod st1
      ∧ ((∃ cause,
            ensurePod c cs overwritePod st1 = Return (Some cause) st'
            ∧ e = withMessage cause
                    ("error ensuring pod: " +:+ pod_Name (decorator_Pod cs)))
         ∨ (∃ st2 cause,
              ensurePod c cs overwritePod st1 = Return None st2
              ∧ ensureService c cs
                  (bool_decide (Status_RegistryServiceStatus cs = None)) st2
                = Return (Some cause) st'
              ∧ e = withMessage cause
                      ("error ensuring service: " +:+ cs_Name cs))).
Proof.
  unfold EnsureRegistryServer. intros Hrun.
  step_in Hrun overwritePod st1 Efresh.
  assert (overwritesPod c cs st = Return overwritePod st1) as Hfirst.
  { unfold overwritesPod. by destruct (Status_RegistryServiceStatus cs). }
  step_in Hrun err st2 Epod.
  destruct err as [cause|]; cbn [Wrapf] in Hrun.
  { injection Hrun as <- <- <-. split; [done|].
    exists overwritePod, st1. split; [done|]. left. by exists cause. }
  step_in Hrun err st3 Esvc.
  destruct err as [cause|]; cbn [Wrapf] in Hrun.
  { injection Hrun as <- <- <-. split; [done|].
    exists overwritePod, st1. split; [done|]. right. exists st2, cause.
    split_and!; [done| |done].
    by destruct (Status_RegistryServiceStatus cs). }
  destruct overwritePod; [|discriminate Hrun].
  step_in Hrun t st4 Enow. by cbn in Hrun.
Qed.

(** X15.  A first reconcile that succeeds leaves a status record: it
    carries the time the reconciler's clock gave after the service was
    ensured, the protocol grpc, the name and namespace of the catalog
    source as those of the service, and the port 50051; the rest of the
    descriptor is as before.  The next call is no first reconcile. *)
Theorem EnsureRegistryServer_first_status c cs st cs' st' :
  Status_RegistryServiceStatus cs = None →
  EnsureRegistryServer c cs st = Return (None, cs') st' →
  ∃ w,
    cs' = setRegistryServiceStatus cs
            {| CreatedAt := (now c w).1;
               Protocol := "grpc";
               ServiceName := cs_Name cs;
               ServiceNamespace := cs_Namespace cs;
               Port := "50051" |}
    ∧ world st' = (now c w).2
    ∧ Status_RegistryServiceStatus cs' ≠ None.
Proof.
  intros Hstatus Hrun. unfold EnsureRegistryServer in Hrun.
  rewrite Hstatus in Hrun. rewrite (bind_Return _ _ _ true st) in Hrun by done.
  step_in Hrun err st1 Epod.
  destruct err as [e|]; [by injection Hrun|]. cbn [Wrapf] in Hrun.
  step_in Hrun err st2 Esvc.
  destruct err as [e|]; [by injection Hrun|]. cbn [Wrapf] in Hrun.
  step_in Hrun t st3 Enow. rewrite lift_run in Enow. injection Enow as <- <-.
  cbn in Hrun. injection Hrun as <- <-. by exists (world st2).
Qed.

Lemma filter_none {A} (P : A → Prop) `{∀ x, Decision (P x)} (l : list A) :
  (∀ x, x ∈ l → ¬ P x) → filter P l = [].
Proof.
  induction l as [|x l IH]; intros Hnone; [done|].
  rewrite filter_cons, decide_False by (apply Hnone; left).
  apply IH. intros y Hy. apply Hnone. by right.
Qed.

Lemma ensureService_keep_trace c cs st st' :
  ensureService c cs false st = Return None st' →
  trace st'
  = (trace st
       ++ match cachedService c cs (world st) with
          | Some _ => []
          | None => [CreateService (decorator_Service cs)]
          end)%list.
Proof.
  unfold ensureService.
  rewrite (bind_Return _ _ _ _ _ (currentService_run c cs st)).
  destruct (cachedService c cs (world st)); cbn [negb].
  - intros [= <-]. by rewrite app_nil_r.
  - apply createService_trace.
Qed.

(** X16.  The image has changed: the status record is present, every
    cached pod has a first container and none runs the declared image.  A
    call that succeeds has deleted every cached pod and created the desired
    pod; it has not deleted the service, and has created it only if the
    cache did not show it; and it has written a new status record. *)
Theorem EnsureRegistryServer_image_changed c cs st cs' st' status :
  Status_RegistryServiceStatus cs = Some status →
  Forall hasContainer (cachedPods c cs (world st)) →
  (∀ p, p ∈ cachedPods c cs (world st) → firstImage p ≠ Some (Spec_Image cs)) →
  EnsureRegistryServer c cs st = Return (None, cs') st' →
  ∃ st_pod created,
    ensurePod c cs true st = Return None st_pod
    ∧ trace st'
      = (trace st
           ++ deletions (cs_Namespace cs) (cachedPods c cs (world st))
           ++ [Pods_Create (cs_Namespace cs) (decorator_Pod cs)]
           ++ match cachedService c cs (world st_pod) with
              | Some _ => []
              | None => [CreateService (decorator_Service cs)]
              end)%list
    ∧ cs' = setRegistryServiceStatus cs
              (mkRegistryServiceStatus created "grpc" (cs_Name cs)
                 (cs_Namespace cs) "50051").
Proof.
  intros Hstatus Hall Hnone Hrun. unfold EnsureRegistryServer in Hrun.
  rewrite Hstatus in Hrun.
  rewrite (bind_Return _ _ _ true st) in Hrun; cycle 1.
  { rewrite (bind_Return _ _ _ _ _
               (currentPodsWithCorrectImage_run c cs st Hall)).
    by rewrite filter_none. }
  step_in Hrun err st1 Epod.
  destruct err as [e|]; [by injection Hrun|]. cbn [Wrapf] in Hrun.
  step_in Hrun err st2 Esvc.
  destruct err as [e|]; [by injection Hrun|]. cbn [Wrapf] in Hrun.
  step_in Hrun t st3 Enow. rewrite lift_run in Enow. injection Enow as <- <-.
  cbn in Hrun. injection Hrun as <- <-. cbn [trace].
  exists st1. eexists. split; [done|]. split; [|done].
  apply ensurePod_overwrite_trace in Epod.
  apply ensureService_keep_trace in Esvc.
  rewrite Esvc, Epod. by rewrite <- !app_assoc.
Qed.

(** X17.  Health is a fixed point when polling is off: if
    CheckRegistryServer answers true for a catalog source whose status
    record is present and whose poll interval is zero, EnsureRegistryServer
    in the same state succeeds, makes no call, and changes neither the
    descriptor nor the cluster. *)
Theorem healthy_is_fixed_point c cs st st' status :
  Status_RegistryServiceStatus cs = Some status →
  Spec_Poll_Interval cs = 0%Z →
  CheckRegistryServer c cs st = Return (true, None) st' →
  EnsureRegistryServer c cs st = Return (None, cs) st.
Proof.
  intros Hstatus Hpoll Hcheck. unfold CheckRegistryServer in Hcheck.
  step_in Hcheck found st1 Efound.
  pose proof Efound as Hfound.
  apply currentPodsWithCorrectImage_Return in Hfound as (Hall & -> & ->).
  revert Hcheck. case_bool_decide as Hlen; [done|]. intros Hcheck.
  rewrite (bind_Return _ _ _ _ _ (currentService_run c cs st)) in Hcheck.
  destruct (cachedService c cs (world st)) as [service|] eqn:Hsvc; [|done].
  unfold EnsureRegistryServer. rewrite Hstatus.
  rewrite (bind_Return _ _ _ false st); cycle 1.
  { rewrite (bind_Return _ _ _ _ _ Efound).
    rewrite bool_decide_eq_false_2 by lia.
    by apply updateRegistryPodByDigest_disabled. }
  rewrite (bind_Return _ _ _ None st); cycle 1.
  { apply ensurePod_keep. intros Hnil. rewrite Hnil in Hlen. simpl in Hlen. lia. }
  cbn [Wrapf]. rewrite (bind_Return _ _ _ None st); [done|].
  apply ensureService_keep. by rewrite Hsvc.
Qed.

(** X18.  With the status record present and a cached pod that runs the
    declared image, no call of EnsureRegistryServer that returns has
    written the status record, whatever the probe has delivered: the
    comparison of digests answers false or panics, it never asks for the
    pod to be replaced. *)
Theorem EnsureRegistryServer_served_keeps_status c cs st err cs' st' status :
  Status_RegistryServiceStatus cs = Some status →
  (∃ p, p ∈ cachedPods c cs (world st) ∧ firstImage p = Some (Spec_Image cs)) →
  EnsureRegistryServer c cs st = Return (err, cs') st' →
  cs' = cs.
Proof.
  intros Hstatus (p & Hin & Himg) Hrun. unfold EnsureRegistryServer in Hrun.
  rewrite Hstatus in Hrun. step_in Hrun overwritePod st1 Efresh.
  assert (overwritePod = false) as ->.
  { step_in Efresh found st0 Efound.
    apply currentPodsWithCorrectImage_Return in Efound as (Hall & -> & ->).
    revert Efresh. case_bool_decide as Hlen.
    - apply length_zero_iff_nil in Hlen.
      assert (p ∈ filter (fun p => firstImage p = Some (Spec_Image cs))
                         (cachedPods c cs (world st))) as Hp
        by (by apply list_elem_of_filter).
      rewrite Hlen in Hp. by apply elem_of_nil in Hp.
    - apply updateRegistryPodByDigest_not_true. }
  step_in Hrun e st2 Epod.
  destruct e as [e|]; cbn [Wrapf] in Hrun; [by injection Hrun|].
  step_in Hrun e st3 Esvc.
  destruct e as [e|]; cbn [Wrapf] in Hrun; by injection Hrun.
Qed.

(** *** The probe, attempt by attempt *)

Lemma pollImageID_pending pod status statuses attempts image st :
  pod_ContainerStatuses pod = status :: statuses →
  ImageID status = "" →
  pollImageID pod attempts image st
  = Return (match attempts with O => image | S _ => "" end)
      (mkState (Nat.iter attempts (time_Sleep (10 * Second)%Z) (world st))
         (trace st)).
Proof.
  intros Hst Hid. revert image st.
  induction attempts as [|n IH]; intros image st; simpl.
  - by destruct st.
  - rewrite bind_run, Hst. simpl. rewrite bool_decide_eq_true_2 by done.
    rewrite bind_run, lift_run. cbn [fst snd world trace]. rewrite IH, Hid.
    cbn [world trace]. rewrite <- Nat.iter_succ_r. simpl. by destruct n.
Qed.

Lemma pollImageID_ready pod status statuses attempts image st :
  pod_ContainerStatuses pod = status :: statuses →
  ImageID status ≠ "" →
  pollImageID pod (S attempts) image st = Return (ImageID status) st.
Proof.
  intros Hst Hid. simpl. rewrite bind_run, Hst. simpl.
  by rewrite bool_decide_eq_false_2.
Qed.

(** X19.  getPodDigest reads the image ID off the pod the create call has
    returned and never fetches the pod again.  So when that pod has a first
    container status with an empty image ID, the ten attempts all find it
    empty: the probe sleeps ten times ten seconds and ends without sending
    a digest. *)
Theorem getPodDigest_gives_up c cs st pod status statuses :
  (client_Pods_Create (OpClient c) (cs_Namespace cs) (probePod cs) (world st)).1
    = Ok pod →
  pod_ContainerStatuses pod = status :: statuses →
  ImageID status = "" →
  getPodDigest c cs st
  = Return None
      (mkState
         (Nat.iter 10 (time_Sleep (10 * Second)%Z)
            (client_Pods_Create (OpClient c) (cs_Namespace cs) (probePod cs)
               (world st)).2)
         (trace st ++ [Pods_Create (cs_Namespace cs) (probePod cs)])).
Proof.
  intros Hcreate Hst Hid. unfold getPodDigest.
  rewrite bind_run, call_run, Hcreate. rewrite bind_run.
  by rewrite (pollImageID_pending pod status statuses 10 "" _ Hst Hid).
Qed.

(** X20.  getPodDigest sends a digest in one case only: the create call
    succeeds and returns a pod with a container and a first container
    status whose image ID is not empty.  The digest sent is that image ID,
    and the probe has not slept. *)
Theorem getPodDigest_sends c cs st digest st' :
  getPodDigest c cs st = Return (Some digest) st'
  ↔ ∃ pod status statuses,
      (client_Pods_Create (OpClient c) (cs_Namespace cs) (probePod cs)
         (world st)).1 = Ok pod
      ∧ pod_ContainerStatuses pod = status :: statuses
      ∧ ImageID status = digest
      ∧ digest ≠ ""
      ∧ pod_Containers pod ≠ []
      ∧ st' = mkState
                (client_Pods_Create (OpClient c) (cs_Namespace cs)
                   (probePod cs) (world st)).2
                (trace st ++ [Pods_Create (cs_Namespace cs) (probePod cs)]).
Proof.
  unfold getPodDigest. rewrite bind_run, call_run.
  destruct (client_Pods_Create _ _ _ _).1 as [pod|e] eqn:Hcreate; cycle 1.
  { split; [done|]. by intros (? & ? & ? & ? & _). }
  rewrite bind_run.
  destruct (pod_ContainerStatuses pod) as [|status statuses] eqn:Hst.
  { simpl. rewrite Hst. simpl. split; [done|].
    intros (? & ? & ? & [= <-] & ? & _). congruence. }
  destruct (decide (ImageID status = "")) as [Hid|Hid].
  { rewrite (pollImageID_pending pod status statuses 10 "" _ Hst Hid).
    rewrite bool_decide_eq_true_2 by done. split; [done|].
    intros (? & ? & ? & [= <-] & Hst' & <- & Hne & _).
    rewrite Hst in Hst'. injection Hst' as <- <-. done. }
  rewrite (pollImageID_ready pod status statuses 9 "" _ Hst Hid).
  rewrite bool_decide_eq_false_2 by done. rewrite bind_run.
  destruct (pod_Containers pod) as [|c0 cont] eqn:Hc.
  { simpl. split; [done|].
    intros (? & ? & ? & [= <-] & _ & _ & _ & Hne & _). congruence. }
  simpl. rewrite ?Hst. simpl. split.
  - intros [= <- <-]. exists pod, status, statuses.
    split_and!; try done. by rewrite Hc.
  - intros (? & ? & ? & [= <-] & Hst' & <- & _ & _ & ->).
    rewrite Hst in Hst'. by injection Hst' as <- <-.
Qed.

(** *** The probe step by step *)

Lemma runProbe_attempt_gives_up c cs steps pod status statuses attempts st :
  pod_ContainerStatuses pod = status :: statuses →
  ImageID status = "" →
  (1 ≤ attempts)%nat →
  (attempts ≤ steps)%nat →
  runProbe c cs steps (probe_attempt pod attempts) st
  = Return (probe_end None)
      (mkState (Nat.iter attempts (time_Sleep (10 * Second)%Z) (world st))
         (trace st)).
Proof.
  intros Hst Hid. revert attempts st.
  induction steps as [|n IH]; intros attempts st Hpos Hle; [lia|].
  cbn [runProbe]. rewrite bind_run. cbn [stepProbe]. rewrite bind_run, Hst.
  simpl. rewrite bool_decide_eq_true_2 by done. rewrite bind_run, lift_run.
  cbn [fst snd world trace]. destruct attempts as [|[|a]]; [lia|..].
  - by rewrite ret_run, runProbe_end.
  - rewrite ret_run, IH by lia. cbn [world trace].
    by rewrite <- Nat.iter_succ_r.
Qed.

(** The steps of the probe are those of getPodDigest: given thirteen steps
    or more, the probe ends, or panics, as getPodDigest does, in the same
    state and having sent the same. *)
Lemma runProbe_complete c cs steps st :
  (13 ≤ steps)%nat →
  (runProbe c cs steps probe_start ≫= fun p : Probe => mret (sentOf p)) st
  = getPodDigest c cs st.
Proof.
  intros Hsteps. destruct steps as [|n]; [lia|]. unfold getPodDigest.
  cbn [runProbe]. rewrite bind_assoc_run. cbn [stepProbe].
  rewrite bind_assoc_run.
  apply bind_ext; [done|]. intros [pod|e] st1; cycle 1.
  { by rewrite bind_run, ret_run, bind_run, runProbe_end. }
  rewrite bind_run, ret_run.
  destruct (pod_ContainerStatuses pod) as [|status statuses] eqn:Hst.
  { rewrite bind_run, runProbe_attempt_no_status by done.
    destruct n; [lia|]. rewrite bind_run. simpl. by rewrite Hst. }
  destruct (decide (ImageID status = "")) as [Hid|Hid].
  { rewrite bind_run.
    rewrite (runProbe_attempt_gives_up c cs n pod status statuses 10)
      by (done || lia).
    rewrite bind_run.
    rewrite (pollImageID_pending pod status statuses 10 "" _ Hst Hid).
    by rewrite bool_decide_eq_true_2. }
  rewrite bind_run.
  rewrite (runProbe_attempt_ready c cs n pod status statuses) by done.
  destruct n as [|n]; [lia|]. rewrite runProbe_log.
  destruct n as [|[|n]]; [lia|lia|].
  rewrite bind_run.
  rewrite (pollImageID_ready pod status statuses 9 "" _ Hst Hid).
  rewrite bool_decide_eq_false_2 by done. rewrite bind_run.
  destruct (pod_Containers pod) as [|c0 containers]; [done|]. simpl.
  by rewrite Hst.
Qed.

(** *** The address reconciler *)

(** EnsureRegistryServer of the address reconciler always succeeds
    and makes no call.  It replaces the status record by one that carries
    the time of its clock and the protocol grpc and names no service;
    nothing of a previous status record survives, so the outcome does not
    depend on it. *)
Lemma GrpcAddress_EnsureRegistryServer_stamps
    (g : GrpcAddressRegistryReconciler W) cs st (previous : RegistryServiceStatus) :
  GrpcAddress_EnsureRegistryServer g cs st
  = Return (None,
            setRegistryServiceStatus cs
              (mkRegistryServiceStatus (address_now g (world st)).1 "grpc" "" "" ""))
      (mkState (address_now g (world st)).2 (trace st))
  ∧ GrpcAddress_EnsureRegistryServer g (setRegistryServiceStatus cs previous) st
    = GrpcAddress_EnsureRegistryServer g cs st.
Proof.
  unfold GrpcAddress_EnsureRegistryServer. by rewrite !bind_run, !lift_run.
Qed.

(** *** More on the freshness check *)

(** X21.  The exact condition under which updateRegistryPodByDigest starts
    a probe: the poll interval is not zero, the first reading of the wall
    clock is later than Go's zero time plus the interval, and the second
    reading is later than the creation timestamp of the catalog source plus
    the interval.  Nothing of an earlier check enters the condition, and a
    negative interval is used as it is. *)
Theorem probe_started_exactly_when c cs st :
  startsProbe cs (trace st)
    (trace (outcome_state (updateRegistryPodByDigest c cs st)))
  ↔ Spec_Poll_Interval cs ≠ 0%Z
    ∧ (zeroTime + Spec_Poll_Interval cs < firstReading (world st))%Z
    ∧ (cs_CreationTimestamp cs + Spec_Poll_Interval cs
         < secondReading (world st))%Z.
Proof. apply startsProbe_iff. Qed.

(** X22.  updateRegistryPodByDigest does not read the cache: with another
    lister in the reconciler its outcome is the same, so it cannot depend
    on the pod that serves the catalog. *)
Theorem updateRegistryPodByDigest_ignores_cache c (lister : OperatorLister W)
    cs st :
  updateRegistryPodByDigest (withLister c lister) cs st
  = updateRegistryPodByDigest c cs st.
Proof. by apply updateRegistryPodByDigest_view. Qed.

(** X23.  A first reconcile indexes no pod: with the status record absent
    EnsureRegistryServer returns, with nil or with an error, whatever the
    cache holds, pods without containers included. *)
Theorem first_reconcile_returns c cs st :
  Status_RegistryServiceStatus cs = None →
  returns (EnsureRegistryServer c cs st) = true.
Proof.
  intros Hstatus. unfold EnsureRegistryServer. rewrite Hstatus.
  rewrite bind_run, ret_run. apply EnsureRegistryServer_tail_returns.
Qed.

End reconciler_properties.

(* ====================================================================== *)
(** ** The reconciler on concrete clusters *)
(* ====================================================================== *)

Section reconciler_scenarios.

Import reconciler scenarios.

#[local] Existing Instance scenarios.runtime.
#[local] Existing Instance scenarios.package.

Local Open Scope Z_scope.

(** First reconcile of a catalog source whose two pods and service are in
    the cache already. *)
Lemma EnsureRegistryServer_first_reconcile_witness :
  trace (outcome_state (EnsureRegistryServer (grpcReconciler []) fresh (start crowded)))
  = [ Pods_Delete "olm" "operators-x2x9k";
      Pods_Delete "olm" "operators-7hd4s";
      Pods_Create "olm" (decorator_Pod fresh);
      DeleteService "olm" "operators";
      CreateService (decorator_Service fresh) ].
Proof.
  destruct (EnsureRegistryServer_first_reconcile (grpcReconciler []) fresh
              (start crowded)
              (setRegistryServiceStatus fresh
                 (mkRegistryServiceStatus (10 * hour) "grpc" "operators" "olm"
                    "50051"))
              (outcome_state
                 (EnsureRegistryServer (grpcReconciler []) fresh (start crowded))))
    as (st_pod & Hpod & Htrace).
  - reflexivity.
  - vm_compute. reflexivity.
  - rewrite Htrace. vm_compute in Hpod. injection Hpod as <-.
    vm_compute. reflexivity.
Defined.

(** The health check on the served cluster. *)
Lemma CheckRegistryServer_healthy_iff_witness :
  CheckRegistryServer (grpcReconciler []) settled (start (served None false))
  = Return (true, None) (start (served None false)).
Proof.
  destruct (CheckRegistryServer_healthy_iff (grpcReconciler []) settled
              (start (served None false))) as (healthy & Hrun & Hiff).
  - intros pods Hpods. vm_compute in Hpods. injection Hpods as <-.
    repeat constructor. discriminate.
  - rewrite Hrun. f_equal. f_equal. apply Hiff. split.
    + eexists _, (servingPod "operators-x2x9k" image (10 * hour - Second)).
      split; [vm_compute; reflexivity|]. split; [left|reflexivity].
    + eexists. vm_compute. reflexivity.
Defined.



(** C4, as the specification states it, fails.  Two checks one second apart
    both start a probe, with a poll interval of one hour, and while the pod
    that serves the catalog is a second, then two seconds old. *)
Lemma probes_started_one_second_apart :
  startsProbe polled []
    (trace (outcome_state
              (updateRegistryPodByDigest (grpcReconciler []) polled
                 (start (served None false)))))
  ∧ startsProbe polled []
      (trace (outcome_state
                (updateRegistryPodByDigest (grpcReconciler []) polled
                   (start (advance Second (served None false))))))
  ∧ clock (advance Second (served None false)) - clock (served None false)
    < Spec_Poll_Interval polled
  ∧ cachedPods (grpcReconciler []) polled (advance Second (served None false))
    = [servingPod "operators-x2x9k" image (10 * hour - Second)]
  ∧ clock (advance Second (served None false)) - (10 * hour - Second)
    < Spec_Poll_Interval polled.
Proof.
  split_and!.
  - exists []. vm_compute. reflexivity.
  - exists []. vm_compute. reflexivity.
  - vm_compute. reflexivity.
  - vm_compute. reflexivity.
  - vm_compute. reflexivity.
Qed.

Lemma probe_started_only_after_interval_witness :
  Spec_Poll_Interval polled ≠ 0
  ∧ Spec_Poll_Interval polled
    < secondReading (served None false) - cs_CreationTimestamp polled.
Proof.
  apply (probe_started_only_after_interval (grpcReconciler []) polled
           (start (served None false))).
  exists []. vm_compute. reflexivity.
Defined.

(** C5 on the code.  The probe has run and delivered the digest of the
    image; the pod that serves the catalog reports [sha256:aaaa].  Whether
    the delivered digest differs or not, updateRegistryPodByDigest answers
    neither true nor false: it panics on the first container status of the
    pod the decorator has just built. *)
Theorem updateRegistryPodByDigest_panics_on_digest :
  ImageID <$> pod_ContainerStatuses
                (servingPod "operators-x2x9k" image (10 * hour - Second))
  = ["sha256:aaaa"]
  ∧ receiveDigest (grpcReconciler [mkContainerStatus "sha256:bbbb"]) polled
      (start (served None true))
    = Return (Some "sha256:bbbb")
        (mkState (served None true)
           [Go_getPodDigest polled; Pods_Create "olm" (probePod polled)])
  ∧ updateRegistryPodByDigest (grpcReconciler [mkContainerStatus "sha256:bbbb"])
      polled (start (served None true))
    = Panic (mkState (served None true)
               [Go_getPodDigest polled; Pods_Create "olm" (probePod polled)])
  ∧ updateRegistryPodByDigest (grpcReconciler [mkContainerStatus "sha256:aaaa"])
      polled (start (served None true))
    = Panic (mkState (served None true)
               [Go_getPodDigest polled; Pods_Create "olm" (probePod polled)]).
Proof. vm_compute. repeat split; reflexivity. Qed.

Lemma probePod_not_selected_witness :
  Matches (decorator_Selector polled) (pod_Labels (probePod polled)) = false
  ∧ pod_Labels (probePod polled) !! "olm.catalogSource" = Some "".
Proof.
  pose proof (probePod_not_selected (grpcReconciler []) polled
                (start (served None false))) as H.
  split; apply H; discriminate.
Defined.


(** The schedules between a probe that has not started and one that has
    ended.  The create call answers with a pod that reports no container
    status.  After one step of the probe the call is issued and the
    operation returns; after two the probe has indexed the missing status,
    and the panic of the goroutine ends the program. *)
Example probe_between_start_and_end :
  EnsureRegistryServer (grpcReconciler []) polled (start (scheduled 1))
  = Return (None, polled)
      (mkState (scheduled 1)
         [Go_getPodDigest polled; Pods_Create "olm" (probePod polled)])
  ∧ EnsureRegistryServer (grpcReconciler []) polled (start (scheduled 2))
    = Panic (mkState (scheduled 2)
               [Go_getPodDigest polled; Pods_Create "olm" (probePod polled)]).
Proof. vm_compute. split; reflexivity. Qed.

(** With a pod that reports its image ID: after three steps nothing is
    sent; after four the digest is on the channel, and the select
    statement panics. *)
Example probe_sends_at_fourth_step :
  EnsureRegistryServer (grpcReconciler [mkContainerStatus "sha256:bbbb"])
    polled (start (scheduled 3))
  = Return (None, polled)
      (mkState (scheduled 3)
         [Go_getPodDigest polled; Pods_Create "olm" (probePod polled)])
  ∧ EnsureRegistryServer (grpcReconciler [mkContainerStatus "sha256:bbbb"])
      polled (start (scheduled 4))
    = Panic (mkState (scheduled 4)
               [Go_getPodDigest polled; Pods_Create "olm" (probePod polled)]).
Proof. vm_compute. split; reflexivity. Qed.

(** What ensurePod and ensureService do on a first reconcile; and ensurePod
    when the API server refuses the deletion of the cached pod: the error
    it returns is the error of the client, wrapped with the name of that
    pod. *)
Lemma ensurePod_calls_witness :
  trace (outcome_state (ensurePod (grpcReconciler []) fresh true (start crowded)))
  = [ Pods_Delete "olm" "operators-x2x9k";
      Pods_Delete "olm" "operators-7hd4s";
      Pods_Create "olm" (decorator_Pod fresh) ]
  ∧ ∀ r st',
      ensurePod (grpcReconciler []) fresh true
        (start (served (Some refused) false)) = Return r st' →
      r = Some (withMessage refused "error deleting old pod: operators-x2x9k").
Proof.
  split.
  - destruct (ensurePod_calls (grpcReconciler []) fresh true (start crowded) None
                (outcome_state
                   (ensurePod (grpcReconciler []) fresh true (start crowded))))
      as [(_ & H & _)
         |[(_ & pre & p & post & w & cause & _ & _ & _ & _ & H)
          |(_ & w & _ & _ & Htr & _)]].
    + vm_compute. reflexivity.
    + discriminate H.
    + discriminate H.
    + rewrite Htr. vm_compute. reflexivity.
  - intros r st' Hrun.
    destruct (ensurePod_calls (grpcReconciler []) fresh true
                (start (served (Some refused) false)) r st' Hrun)
      as [(_ & H & _)
         |[(_ & pre & p & post & w & cause & Hpods & Haft & Hdel & _ & ->)
          |(_ & w & Haft & _)]].
    + discriminate H.
    + vm_compute in Hpods. destruct pre as [|q pre].
      * injection Hpods as <- <-. injection Haft as <-.
        vm_compute in Hdel. injection Hdel as <- _. reflexivity.
      * injection Hpods as _ Hpods. destruct pre; discriminate Hpods.
    + vm_compute in Haft. discriminate Haft.
Defined.

Lemma ensureService_calls_witness :
  trace (outcome_state
           (ensureService (grpcReconciler []) fresh true (start crowded)))
  = [ DeleteService "olm" "operators";
      CreateService (decorator_Service fresh) ].
Proof.
  destruct (ensureService_calls (grpcReconciler []) fresh true (start crowded)
              None
              (outcome_state
                 (ensureService (grpcReconciler []) fresh true (start crowded))))
    as [(_ & H & _)|[(_ & _ & [e He] & _)|(_ & Htr & _)]].
  - vm_compute. reflexivity.
  - discriminate H.
  - discriminate He.
  - rewrite Htr. vm_compute. reflexivity.
Defined.

(** The API server refuses the deletion of the cached pod: the error of
    ensurePod comes back wrapped. *)
Lemma EnsureRegistryServer_error_witness :
  fresh = fresh
  ∧ ∃ (overwritePod : bool) st1,
      overwritesPod (grpcReconciler []) fresh
        (start (served (Some refused) false)) = Return overwritePod st1
      ∧ ((∃ cause,
            ensurePod (grpcReconciler []) fresh overwritePod st1
            = Return (Some cause)
                (mkState (served (Some refused) false)
                   [Pods_Delete "olm" "operators-x2x9k"])
            ∧ withMessage
                (withMessage refused "error deleting old pod: operators-x2x9k")
                "error ensuring pod: "
              = withMessage cause
                  ("error ensuring pod: " +:+ pod_Name (decorator_Pod fresh)))
         ∨ (∃ st2 cause,
              ensurePod (grpcReconciler []) fresh overwritePod st1
              = Return None st2
              ∧ ensureService (grpcReconciler []) fresh
                  (bool_decide (Status_RegistryServiceStatus fresh = None)) st2
                = Return (Some cause)
                    (mkState (served (Some refused) false)
                       [Pods_Delete "olm" "operators-x2x9k"])
              ∧ withMessage
                  (withMessage refused
                     "error deleting old pod: operators-x2x9k")
                  "error ensuring pod: "
                = withMessage cause
                    ("error ensuring service: " +:+ cs_Name fresh))).
Proof.
  apply (EnsureRegistryServer_error (grpcReconciler []) fresh
           (start (served (Some refused) false))
           (withMessage
              (withMessage refused "error deleting old pod: operators-x2x9k")
              "error ensuring pod: ")
           fresh
           (mkState (served (Some refused) false)
              [Pods_Delete "olm" "operators-x2x9k"])).
  vm_compute. reflexivity.
Defined.

Lemma EnsureRegistryServer_first_status_witness :
  Status_RegistryServiceStatus
    (setRegistryServiceStatus fresh
       (mkRegistryServiceStatus (10 * hour) "grpc" "operators" "olm" "50051"))
  ≠ None.
Proof.
  destruct (EnsureRegistryServer_first_status (grpcReconciler []) fresh
              (start crowded)
              (setRegistryServiceStatus fresh
                 (mkRegistryServiceStatus (10 * hour) "grpc" "operators" "olm"
                    "50051"))
              (outcome_state
                 (EnsureRegistryServer (grpcReconciler []) fresh (start crowded))))
    as (w & _ & _ & Hstatus).
  - reflexivity.
  - vm_compute. reflexivity.
  - exact Hstatus.
Defined.

(** The declared image is not the one the cached pod runs. *)
Lemma EnsureRegistryServer_image_changed_witness :
  trace (outcome_state
           (EnsureRegistryServer (grpcReconciler []) settled (start stale)))
  = [ Pods_Delete "olm" "operators-7hd4s";
      Pods_Create "olm" (decorator_Pod settled) ].
Proof.
  destruct (EnsureRegistryServer_image_changed (grpcReconciler []) settled
              (start stale)
              (setRegistryServiceStatus settled
                 (mkRegistryServiceStatus (10 * hour) "grpc" "operators" "olm"
                    "50051"))
              (outcome_state
                 (EnsureRegistryServer (grpcReconciler []) settled (start stale)))
              registryStatus)
    as (st_pod & created & Hpod & Htrace & _).
  - reflexivity.
  - vm_compute. repeat constructor. discriminate.
  - intros p Hp. vm_compute in Hp.
    apply elem_of_cons in Hp as [->|Hp]; [discriminate|].
    apply elem_of_nil in Hp. destruct Hp.
  - vm_compute. reflexivity.
  - rewrite Htrace. vm_compute in Hpod. injection Hpod as <-.
    vm_compute. reflexivity.
Defined.

Lemma healthy_is_fixed_point_witness :
  EnsureRegistryServer (grpcReconciler []) settled (start (served None false))
  = Return (None, settled) (start (served None false)).
Proof.
  apply (healthy_is_fixed_point (grpcReconciler []) settled
           (start (served None false)) (start (served None false))
           registryStatus).
  - reflexivity.
  - reflexivity.
  - vm_compute. reflexivity.
Defined.

Lemma EnsureRegistryServer_served_keeps_status_witness : polled = polled.
Proof.
  apply (EnsureRegistryServer_served_keeps_status (grpcReconciler []) polled
           (start (served None false)) None polled
           (mkState (served None false) [Go_getPodDigest polled])
           registryStatus).
  - reflexivity.
  - exists (servingPod "operators-x2x9k" image (10 * hour - Second)).
    split; [vm_compute; left|reflexivity].
  - vm_compute. reflexivity.
Defined.

(** A probe whose pod never reports an image ID: a hundred seconds later it
    has given up. *)
Lemma getPodDigest_gives_up_witness :
  clock (world (outcome_state
                  (getPodDigest (grpcReconciler [mkContainerStatus ""]) polled
                     (start (served None true)))))
  = 10 * hour + 100 * Second.
Proof.
  rewrite (getPodDigest_gives_up (grpcReconciler [mkContainerStatus ""]) polled
             (start (served None true))
             (withStatuses (probePod polled) [mkContainerStatus ""])
             (mkContainerStatus "") []).
  - vm_compute. reflexivity.
  - reflexivity.
  - reflexivity.
  - reflexivity.
Defined.

(** The first reconcile of a cluster whose cached pod has no container
    returns; the reconcile after it panics. *)
Lemma first_reconcile_returns_witness :
  returns (EnsureRegistryServer (grpcReconciler []) fresh (start malformed))
  = true.
Proof.
  apply (first_reconcile_returns (grpcReconciler []) fresh (start malformed)).
  reflexivity.
Defined.

Example second_reconcile_panics :
  returns (EnsureRegistryServer (grpcReconciler []) settled (start malformed))
  = false.
Proof. vm_compute. reflexivity. Qed.

End reconciler_scenarios.
